(** * Viewfinder: the Timpanogos viewpoint/horizon pipeline

    A shallow embedding of [src/routes/timpanogos/api/+server.ts] (and of its
    near-duplicate [scripts/generate-timpanogos.ts], whose pipeline functions
    are the same text).

    Number model.  A JavaScript [number] is modelled as a rational ([Q]):
    every finite double is a rational.  Comparisons, [%], [Math.floor] and
    [Math.round] are exact on doubles and are modelled exactly.  Sums and
    differences are rounded in the code.  The pipeline below takes them
    exactly.  Module [Rounded] has the functions whose result depends on
    that rounding, with every sum and difference passed through a rounding
    [fl]; its theorems hold for every rounding that is monotone and exact on
    whole numbers up to 2^53.  [round64] is the rounding of binary64
    arithmetic; it is such a rounding, and it runs the code on concrete
    doubles.  [NaN] and the infinities are outside the model.  Equality of
    numbers is [Qeq] ([==]).

    The transcendental functions of [Math] and the external collaborators
    ([loadElevationData], [gzipSync], [JSON.stringify]) are parameters. *)

From Stdlib Require Import QArith Qround Qpower ZArith List Lia Lqa Bool.
From Stdlib Require Import Permutation Sorted SetoidList Morphisms.
From Stdlib Require String.
Import String.StringSyntax.
Delimit Scope string_scope with string.
Import ListNotations.

Open Scope Q_scope.

(** ** JavaScript arithmetic primitives *)

(** [Math.trunc]: the integer part, rounding toward zero. *)
Definition Qtrunc (x : Q) : Z :=
  if Qlt_le_dec x 0 then Qceiling x else Qfloor x.

(** The [%] operator: the remainder has the sign of the dividend,
    [a % n = a - n * trunc (a / n)]. *)
Definition js_rem (a n : Q) : Q := a - n * inject_Z (Qtrunc (a / n)).

Definition Math_floor (x : Q) : Q := inject_Z (Qfloor x).

(** [Math.round] rounds to the nearest integer, ties toward +infinity. *)
Definition Math_round (x : Q) : Q := inject_Z (Qfloor (x + (1 # 2))).

(** ** Geodesy primitives: angle normalisation *)

Definition HALF_FOV_DEGREES : Q := 45.

Definition normalizeAngle (angle : Q) : Q :=
  js_rem (js_rem angle 360 + 360) 360.

Definition normalizeRelativeDirection (direction : Q) : Q :=
  if Qlt_le_dec 180 direction then direction - 360
  else if Qlt_le_dec direction (-180) then direction + 360
  else direction.

(** ** Data model *)

Record Coordinate := mkCoordinate { latitude : Q; longitude : Q }.

Record HorizonPoint := mkHorizonPoint {
  relativeDirection : Q;
  elevationAngleDegrees : Q;
  distance_km : Q
}.

Record RawHorizonPoint := mkRawHorizonPoint {
  direction : Q;
  raw_elevationAngleDegrees : Q;
  raw_distance_km : Q
}.

Record Viewpoint := mkViewpoint {
  angle : Q;
  viewpoint : Coordinate;
  bearingToPeak : Q;
  horizon : list HorizonPoint
}.

(** [end] is a keyword, hence the prefixed field names. *)
Record DirectionRange := mkDirectionRange { range_start : Q; range_end : Q }.

(** ** The elevation collaborator and its effects

    The handle returned by [loadElevationData] is an object from another
    package: a call of [calculateHorizon] may read and change the handle's
    internal state [S].  Every call is also recorded in a query log, which
    is what the claims about issued queries are stated on. *)

Record ElevationData (S : Type) := mkElevationData {
  calculateHorizon : Q -> Q -> Q -> Q -> S -> list RawHorizonPoint * S
}.
Arguments calculateHorizon {S} _ _ _ _ _ _.
Arguments mkElevationData {S} _.

Record HorizonQuery := mkHorizonQuery {
  q_lat : Q; q_lon : Q; q_startDir : Q; q_endDir : Q
}.

Record World (S : Type) := mkWorld {
  handle_state : S;
  query_log : list HorizonQuery
}.
Arguments mkWorld {S} _ _.
Arguments handle_state {S} _.
Arguments query_log {S} _.

(** State-passing computations over the world. *)
Definition M (S A : Type) : Type := World S -> A * World S.

Definition ret {S A} (a : A) : M S A := fun w => (a, w).

Definition bind {S A B} (m : M S A) (k : A -> M S B) : M S B :=
  fun w => let (a, w') := m w in k a w'.

Notation "x <- m ;; k" := (bind m (fun x => k))
  (at level 61, m at next level, right associativity).

(** [elevation.calculateHorizon(lat, lon, startDir, endDir)] *)
Definition call_calculateHorizon {S} (elevation : ElevationData S)
    (lat lon startDir endDir : Q) : M S (list RawHorizonPoint) :=
  fun w =>
    let (points, s') :=
      calculateHorizon elevation lat lon startDir endDir (handle_state w) in
    (points,
     mkWorld s' (query_log w ++ [mkHorizonQuery lat lon startDir endDir])).

(** ** [Array.prototype.sort] with a comparator

    The sort is stable; elements are ordered by the sign of the number the
    comparator returns.  Modelled as a stable insertion sort. *)

Fixpoint sort_insert {A} (cmp : A -> A -> Q) (x : A) (l : list A) : list A :=
  match l with
  | [] => [x]
  | y :: l' =>
      if Qlt_le_dec 0 (cmp x y) then y :: sort_insert cmp x l'
      else x :: y :: l'
  end.

Fixpoint Array_sort {A} (cmp : A -> A -> Q) (l : list A) : list A :=
  match l with
  | [] => []
  | x :: l' => sort_insert cmp x (Array_sort cmp l')
  end.

(** ** Direction-range planner and horizon transformer *)

Definition calculateDirectionRange (bearingToPeak : Q) : DirectionRange :=
  {| range_start := Math_floor (normalizeAngle (bearingToPeak - HALF_FOV_DEGREES));
     range_end := Math_floor (normalizeAngle (bearingToPeak + HALF_FOV_DEGREES)) |}.

Definition transformToRelativeDirection
    (point : RawHorizonPoint) (bearingToPeak : Q) : HorizonPoint :=
  {| relativeDirection :=
       normalizeRelativeDirection (direction point - Math_round bearingToPeak);
     elevationAngleDegrees := raw_elevationAngleDegrees point;
     distance_km := raw_distance_km point |}.

(** [range.start > range.end] *)
Definition rangeWrapsAroundNorth (range : DirectionRange) : bool :=
  if Qlt_le_dec (range_end range) (range_start range) then true else false.

(** The [const rawPoints = ...] of [calculateHorizonForViewpoint]. *)
Definition rawPoints {S} (elevation : ElevationData S)
    (viewpoint : Coordinate) (range : DirectionRange)
  : M S (list RawHorizonPoint) :=
  if rangeWrapsAroundNorth range then
    first <- call_calculateHorizon elevation
               (latitude viewpoint) (longitude viewpoint) (range_start range) 359 ;;
    second <- call_calculateHorizon elevation
               (latitude viewpoint) (longitude viewpoint) 0 (range_end range) ;;
    ret (first ++ second)
  else
    call_calculateHorizon elevation
      (latitude viewpoint) (longitude viewpoint) (range_start range) (range_end range).

(** The [return rawPoints.map(...).sort(...)] of
    [calculateHorizonForViewpoint]. *)
Definition relativeHorizon (points : list RawHorizonPoint) (bearingToPeak : Q)
  : list HorizonPoint :=
  Array_sort
    (fun pointA pointB => relativeDirection pointA - relativeDirection pointB)
    (map (fun point => transformToRelativeDirection point bearingToPeak) points).

Definition calculateHorizonForViewpoint {S} (elevation : ElevationData S)
    (viewpoint : Coordinate) (bearingToPeak : Q) : M S (list HorizonPoint) :=
  let range := calculateDirectionRange bearingToPeak in
  points <- rawPoints elevation viewpoint range ;;
  ret (relativeHorizon points bearingToPeak).

(** ** Geodesy primitives that need [Math] *)

(** The part of the [Math] object the pipeline uses and the model does not
    define itself. *)
Class MathLib := {
  Math_PI : Q;
  Math_sin : Q -> Q;
  Math_cos : Q -> Q;
  Math_asin : Q -> Q;
  Math_atan2 : Q -> Q -> Q
}.

Definition PEAK : Coordinate :=
  {| latitude := 403908 # 10000; longitude := - (1116458 # 10000) |}.
Definition DISTANCE_KM : Q := 8919 # 1000.
Definition EARTH_RADIUS_KM : Q := 6371.

Section Geodesy.
Context {ML : MathLib}.

Definition toRadians (degrees : Q) : Q := (degrees * Math_PI) / 180.

Definition toDegrees (radians : Q) : Q := (radians * 180) / Math_PI.

Definition calculateDestinationPoint
    (origin : Coordinate) (distanceKm bearingDegrees : Q) : Coordinate :=
  let angularDistance := distanceKm / EARTH_RADIUS_KM in
  let bearingRadians := toRadians bearingDegrees in
  let originLatitudeRadians := toRadians (latitude origin) in
  let originLongitudeRadians := toRadians (longitude origin) in
  let destinationLatitudeRadians :=
    Math_asin
      (Math_sin originLatitudeRadians * Math_cos angularDistance +
       Math_cos originLatitudeRadians * Math_sin angularDistance *
         Math_cos bearingRadians) in
  let destinationLongitudeRadians :=
    originLongitudeRadians +
    Math_atan2
      (Math_sin bearingRadians * Math_sin angularDistance *
         Math_cos originLatitudeRadians)
      (Math_cos angularDistance -
         Math_sin originLatitudeRadians * Math_sin destinationLatitudeRadians) in
  {| latitude := toDegrees destinationLatitudeRadians;
     longitude := toDegrees destinationLongitudeRadians |}.

Definition calculateBearing (from to : Coordinate) : Q :=
  let deltaLongitudeRadians := toRadians (longitude to - longitude from) in
  let fromLatitudeRadians := toRadians (latitude from) in
  let toLatitudeRadians := toRadians (latitude to) in
  let eastwardComponent :=
    Math_sin deltaLongitudeRadians * Math_cos toLatitudeRadians in
  let northwardComponent :=
    Math_cos fromLatitudeRadians * Math_sin toLatitudeRadians -
    Math_sin fromLatitudeRadians * Math_cos toLatitudeRadians *
      Math_cos deltaLongitudeRadians in
  normalizeAngle (toDegrees (Math_atan2 eastwardComponent northwardComponent)).

(** ** Viewpoint generator and dataset builder *)

Definition generateViewpoint {S} (elevation : ElevationData S) (angle : Q)
  : M S Viewpoint :=
  let viewpoint := calculateDestinationPoint PEAK DISTANCE_KM angle in
  let bearingToPeak := calculateBearing viewpoint PEAK in
  horizon <- calculateHorizonForViewpoint elevation viewpoint bearingToPeak ;;
  ret {| angle := angle; viewpoint := viewpoint;
         bearingToPeak := bearingToPeak; horizon := horizon |}.

(** The loop [for (let angle = 0; angle < 360; angle++) viewpoints.push(...)]
    (the progress messages written to the console are left out). *)
Fixpoint generateEach {S} (elevation : ElevationData S) (angles : list Q)
  : M S (list Viewpoint) :=
  match angles with
  | [] => ret []
  | angle :: rest =>
      v <- generateViewpoint elevation angle ;;
      vs <- generateEach elevation rest ;;
      ret (v :: vs)
  end.

Definition allAngles : list Q :=
  map (fun n => inject_Z (Z.of_nat n)) (seq 0 360).

Definition buildDataset {S} (elevation : ElevationData S)
  : M S (list Viewpoint) :=
  generateEach elevation allAngles.
End Geodesy.

(** ** The single-flight cache

    [generateAllViewpoints] is an async function over two module variables.
    JavaScript runs each synchronous stretch of code to completion, so the
    module is a transition system whose steps are: a caller invokes
    [generateAllViewpoints()] (the code up to the first [await]); the awaited
    [loadElevationData] promise resolves (the rest of the async body runs);
    or that promise rejects (the async body's promise rejects).

    Promises live in a store and are referred to by index, so that every
    caller that is handed [generationPromise] holds the same promise.

    The collaborator's [calculateHorizon], [JSON.stringify] and [gzipSync]
    are total functions here: the one failure of a build attempt that the
    model has is the rejection of the load. *)

Class Codec := {
  Buffer : Type;
  JSON_stringify : list Viewpoint -> String.string;
  gzipSync : String.string -> Buffer
}.

Definition Error : Type := String.string.

Section SingleFlight.
Context {ML : MathLib} {CD : Codec}.
Variable HS : Type.

(** The console message with the sizes is left out. *)
Definition compressToGzip (viewpoints : list Viewpoint) : Buffer :=
  let json := JSON_stringify viewpoints in
  let gzipped := gzipSync json in
  gzipped.

Inductive PromiseState :=
| Pending
| Fulfilled (value : Buffer)
| Rejected (reason : Error).

(** What the body of one call of [generateAllViewpoints] returned: a value
    (the async function's promise is fulfilled with it) or a promise (the
    async function's promise follows it). *)
Inductive Returned :=
| ReturnsValue (value : Buffer)
| ReturnsPromise (p : nat).

Record ModuleState := mkModuleState {
  cachedGzip : option Buffer;
  generationPromise : option nat;
  promises : list PromiseState;  (* promises of the async bodies started *)
  returned : list Returned;      (* one entry per call, oldest first *)
  loadCalls : nat;               (* invocations of loadElevationData *)
  buildRuns : nat                (* executions of the 360-viewpoint loop *)
}.

Definition initialState : ModuleState :=
  mkModuleState None None [] [] 0 0.

Definition settle (p : nat) (v : PromiseState) (ps : list PromiseState)
  : list PromiseState :=
  firstn p ps ++ v :: skipn (Datatypes.S p) ps.

(** One call, up to the point where control returns to the caller. *)
Definition generateAllViewpoints (st : ModuleState) : ModuleState :=
  match cachedGzip st with
  | Some gz =>
      mkModuleState (cachedGzip st) (generationPromise st) (promises st)
        (returned st ++ [ReturnsValue gz]) (loadCalls st) (buildRuns st)
  | None =>
      match generationPromise st with
      | Some p =>
          mkModuleState (cachedGzip st) (generationPromise st) (promises st)
            (returned st ++ [ReturnsPromise p]) (loadCalls st) (buildRuns st)
      | None =>
          (* the async body starts: it calls loadElevationData and awaits *)
          let p := length (promises st) in
          mkModuleState None (Some p) (promises st ++ [Pending])
            (returned st ++ [ReturnsPromise p])
            (Datatypes.S (loadCalls st)) (buildRuns st)
      end
  end.

(** The async body of promise [p] resumes with the loaded handle. *)
Definition resumeLoaded (p : nat) (elevation : ElevationData HS) (s0 : HS)
    (st : ModuleState) : ModuleState :=
  match nth_error (promises st) p with
  | Some Pending =>
      let viewpoints := fst (buildDataset elevation (mkWorld s0 [])) in
      let gz := compressToGzip viewpoints in
      mkModuleState (Some gz) (generationPromise st)
        (settle p (Fulfilled gz) (promises st))
        (returned st) (loadCalls st) (Datatypes.S (buildRuns st))
  | _ => st
  end.

(** The load awaited by the async body of promise [p] rejects. *)
Definition resumeFailed (p : nat) (reason : Error) (st : ModuleState)
  : ModuleState :=
  match nth_error (promises st) p with
  | Some Pending =>
      mkModuleState (cachedGzip st) (generationPromise st)
        (settle p (Rejected reason) (promises st))
        (returned st) (loadCalls st) (buildRuns st)
  | _ => st
  end.

Inductive Event :=
| Call
| LoadResolved (p : nat) (elevation : ElevationData HS) (s0 : HS)
| LoadRejected (p : nat) (reason : Error).

Definition step (st : ModuleState) (e : Event) : ModuleState :=
  match e with
  | Call => generateAllViewpoints st
  | LoadResolved p elevation s0 => resumeLoaded p elevation s0 st
  | LoadRejected p reason => resumeFailed p reason st
  end.

Definition run (st : ModuleState) (events : list Event) : ModuleState :=
  fold_left step events st.

(** What the caller holding [r] observes in state [st]. *)
Definition outcome (st : ModuleState) (r : Returned) : PromiseState :=
  match r with
  | ReturnsValue gz => Fulfilled gz
  | ReturnsPromise p => nth p (promises st) Pending
  end.

(** The Empty state of the specification: nothing cached, nothing in
    flight, so that the next call starts a build. *)
Definition isEmpty (st : ModuleState) : Prop :=
  cachedGzip st = None /\ generationPromise st = None.
(** The shapes the module state can take: the Empty, Pending and Ready
    states of the specification, and the state after a failed load. *)
Inductive Shape : ModuleState -> Prop :=
| ShEmpty : Shape initialState
| ShPending rs :
    rs <> [] ->
    Forall (fun r => r = ReturnsPromise 0) rs ->
    Shape (mkModuleState None (Some 0%nat) [Pending] rs 1 0)
| ShReady (elevation : ElevationData HS) (s0 : HS) gz rs :
    gz = compressToGzip (fst (buildDataset elevation (mkWorld s0 []))) ->
    Forall (fun r => r = ReturnsPromise 0 \/ r = ReturnsValue gz) rs ->
    Shape (mkModuleState (Some gz) (Some 0%nat) [Fulfilled gz] rs 1 1)
| ShFailed reason rs :
    Forall (fun r => r = ReturnsPromise 0) rs ->
    Shape (mkModuleState None (Some 0%nat) [Rejected reason] rs 1 0).
End SingleFlight.

Arguments Pending {CD}.
Arguments Fulfilled {CD} _.
Arguments Rejected {CD} _.
Arguments ReturnsValue {CD} _.
Arguments ReturnsPromise {CD} _.
Arguments Call {HS}.
Arguments LoadResolved {HS} _ _ _.
Arguments LoadRejected {HS} _ _.
Arguments initialState {CD}.

(** A stand-in codec for examples: the artifact is the JSON text itself,
    and the JSON text only records how many viewpoints there are. *)
Definition stubCodec : Codec :=
  {| Buffer := String.string;
     JSON_stringify := fun viewpoints =>
       String.concat ","%string (map (fun _ => "{}"%string) viewpoints);
     gzipSync := fun json => json |}.

(** ** Specification vocabulary

    The integer compass degrees of an inclusive range, the degrees a logged
    query asks for, and a collaborator that answers every query with one
    sample per integer degree of the range (flat terrain); the last one is
    the concrete handle of the examples. *)

Definition degreesBetween (s e : Z) : list Z :=
  map (fun k => (s + Z.of_nat k)%Z) (seq 0 (Z.to_nat (e - s + 1))).


Definition onePerDegree {S} (elevation : ElevationData S) : Prop :=
  forall (lat lon : Q) (s e : Z) (st : S),
    (0 <= s)%Z -> (s <= e)%Z -> (e <= 359)%Z ->
    Permutation
      (map direction
         (fst (calculateHorizon elevation lat lon (inject_Z s) (inject_Z e) st)))
      (map inject_Z (degreesBetween s e)).

(** Ascending, and strictly ascending, by [relativeDirection]. *)
Definition keyLe (h1 h2 : HorizonPoint) : Prop :=
  relativeDirection h1 <= relativeDirection h2.

Definition keyLt (h1 h2 : HorizonPoint) : Prop :=
  relativeDirection h1 < relativeDirection h2.

(** The answers of the handle do not depend on its internal state. *)
Definition pureHandle {S} (elevation : ElevationData S) : Prop :=
  forall (lat lon startDir endDir : Q) (st st' : S),
    fst (calculateHorizon elevation lat lon startDir endDir st) =
    fst (calculateHorizon elevation lat lon startDir endDir st').

Definition flatTerrain : ElevationData unit :=
  mkElevationData
    (fun lat lon startDir endDir st =>
       (map (fun d => mkRawHorizonPoint (inject_Z d) 0 1)
            (degreesBetween (Qfloor startDir) (Qfloor endDir)), st)).

(** A crude rational stand-in for the [Math] object (low-order
    approximations), enough to run the pipeline in examples. *)
Definition coarseMath : MathLib :=
  let pi := 355 # 113 in
  {| Math_PI := pi;
     Math_sin := fun x => x - x * x * x / 6;
     Math_cos := fun x => 1 - x * x / 2;
     Math_asin := fun x => x + x * x * x / 6;
     Math_atan2 := fun y x =>
       if Qlt_le_dec 0 x then y / x
       else if Qlt_le_dec x 0 then
              (if Qlt_le_dec y 0 then y / x - pi else y / x + pi)
       else if Qlt_le_dec 0 y then pi / 2
       else if Qlt_le_dec y 0 then - (pi / 2) else 0 |}.

(** ** Double arithmetic: rounded sums and differences *)

(** The nearest integer, ties to the even one. *)
Definition roundHalfEven (t : Q) : Z :=
  let q := Qfloor t in
  match Qcompare (t - inject_Z q) (1 # 2) with
  | Lt => q
  | Gt => (q + 1)%Z
  | Eq => if Z.even q then q else (q + 1)%Z
  end.

(** For [a > 0], the exponent [k] with [2^k <= a < 2^(k+1)]. *)
Definition binade (a : Q) : Z :=
  let k := (Z.log2 (Qnum a) - Z.log2 (Zpos (Qden a)))%Z in
  if Qle_bool (2 ^ k) a then k else (k - 1)%Z.

(** A positive number rounded to the nearest number with a 53-bit
    significand, ties to even. *)
Definition roundPositive (a : Q) : Q :=
  let u := 2 ^ (binade a - 52) in inject_Z (roundHalfEven (a / u)) * u.

(** The rounding of every binary64 operation.  The exponent is not limited;
    between 2^-1022 and 2^1024 in magnitude, where all values of the
    pipeline lie, that is the binary64 result. *)
Definition round64 (x : Q) : Q :=
  match Qcompare x 0 with
  | Eq => 0
  | Gt => roundPositive x
  | Lt => - roundPositive (- x)
  end.

(** The doubles that JavaScript writes [-0.2], [359.8],
    [359.79999999999995] and [13.999999999999968]. *)
Definition double_minus_0_2 : Q := -3602879701896397 # 18014398509481984.
Definition double_13_999999999999968 : Q := 3940649673949175 # 281474976710656.

(** And [44.99999999999999], [149.99999999999994] and
    [315.99999999999994]. *)
Definition double_44_99999999999999 : Q := 6333186975989759 # 140737488355328.
Definition double_149_99999999999994 : Q := 2638827906662399 # 17592186044416.
Definition double_315_99999999999994 : Q := 5559130790035455 # 17592186044416.

(** What the theorems need of a rounding: it keeps the order and is exact on
    whole numbers up to 2^53.  Round-to-nearest of binary64 is one such
    rounding; so is exact arithmetic. *)
Record faithfulRounding (fl : Q -> Q) : Prop := {
  rounding_monotone : forall x y : Q, x <= y -> fl x <= fl y;
  rounding_whole :
    forall z : Z, (Z.abs z <= 2 ^ 53)%Z -> fl (inject_Z z) == inject_Z z
}.

(** The functions of the pipeline whose result depends on rounding, with
    the rounding [fl] applied where the code adds or subtracts. *)
Module Rounded.
Section Rounding.
Variable fl : Q -> Q.

Definition normalizeAngle (angle : Q) : Q :=
  js_rem (fl (js_rem angle 360 + 360)) 360.

Definition normalizeRelativeDirection (direction : Q) : Q :=
  if Qlt_le_dec 180 direction then fl (direction - 360)
  else if Qlt_le_dec direction (-180) then fl (direction + 360)
  else direction.

Definition calculateDirectionRange (bearingToPeak : Q) : DirectionRange :=
  {| range_start :=
       Math_floor (normalizeAngle (fl (bearingToPeak - HALF_FOV_DEGREES)));
     range_end :=
       Math_floor (normalizeAngle (fl (bearingToPeak + HALF_FOV_DEGREES))) |}.

Definition transformToRelativeDirection
    (point : RawHorizonPoint) (bearingToPeak : Q) : HorizonPoint :=
  {| relativeDirection :=
       normalizeRelativeDirection
         (fl (direction point - Math_round bearingToPeak));
     elevationAngleDegrees := raw_elevationAngleDegrees point;
     distance_km := raw_distance_km point |}.

Definition calculateHorizonForViewpoint {S} (elevation : ElevationData S)
    (viewpoint : Coordinate) (bearingToPeak : Q) : M S (list HorizonPoint) :=
  let range := calculateDirectionRange bearingToPeak in
  points <- rawPoints elevation viewpoint range ;;
  ret (Array_sort
         (fun pointA pointB =>
            fl (relativeDirection pointA - relativeDirection pointB))
         (map (fun point => transformToRelativeDirection point bearingToPeak)
              points)).
End Rounding.
End Rounded.

(** ** Further vocabulary for the cache *)

Section CacheVocabulary.
Context {CD : Codec}.

(** Nothing that [st] had settled is different in [st']. *)
Definition carriesOver (st st' : ModuleState) : Prop :=
  (forall gz, cachedGzip st = Some gz -> cachedGzip st' = Some gz) /\
  (exists more, returned st' = returned st ++ more) /\
  (forall r, In r (returned st) -> outcome st r <> Pending ->
             outcome st' r = outcome st r) /\
  (loadCalls st <= loadCalls st')%nat /\ (buildRuns st <= buildRuns st')%nat.
End CacheVocabulary.

Definition countCalls {HS : Type} (events : list (Event HS)) : nat :=
  length (filter (fun e => match e with Call => true | _ => false end) events).

(** ** Further vocabulary for the pipeline *)

(** A query the collaborator accepts: integer bounds, [0 <= start <= end <= 359]. *)
Definition wellFormedQuery (q : HorizonQuery) : Prop :=
  exists s e : Z,
    q_startDir q = inject_Z s /\ q_endDir q = inject_Z e /\
    (0 <= s)%Z /\ (s <= e)%Z /\ (e <= 359)%Z.

(** The compass degrees of the window from [s] clockwise to [e]. *)
Definition windowDegrees (s e : Z) : list Z :=
  if (e <? s)%Z then degreesBetween s 359 ++ degreesBetween 0 e
  else degreesBetween s e.

(** [normalizeRelativeDirection] on integers. *)
Definition zRelative (x : Z) : Z :=
  if (180 <? x)%Z then (x - 360)%Z
  else if (x <? -180)%Z then (x + 360)%Z
  else x.

(** ** The chart page

    The script of the page that draws one viewpoint of the dataset as a bar
    chart and steps through the 360 viewpoints.  Number-to-text conversion
    is a parameter; the timer of the animation is an event. *)

Record RgbColor := mkRgbColor { red : Q; green : Q; blue : Q }.

Definition MAX_DISTANCE_KM : Q := 15.
Definition CLOSE_COLOR : RgbColor := {| red := 255; green := 107; blue := 53 |}.
Definition FAR_COLOR : RgbColor := {| red := 65; green := 88; blue := 208 |}.

Definition Math_max (a b : Q) : Q := if Qlt_le_dec a b then b else a.

Definition Math_min (a b : Q) : Q := if Qlt_le_dec b a then b else a.

Definition clamp (value min max : Q) : Q :=
  Math_min (Math_max value min) max.

Definition linearInterpolate (start end_ ratio : Q) : Q :=
  Math_round (start + (end_ - start) * ratio).

Definition interpolateColor (fromColor toColor : RgbColor) (ratio : Q)
  : RgbColor :=
  {| red := linearInterpolate (red fromColor) (red toColor) ratio;
     green := linearInterpolate (green fromColor) (green toColor) ratio;
     blue := linearInterpolate (blue fromColor) (blue toColor) ratio |}.

(** The conversion of a number to text in a template literal. *)
Class NumberFormat := { Number_toString : Q -> String.string }.

Definition rgbToString {NF : NumberFormat} (color : RgbColor) : String.string :=
  String.append "rgb("%string
    (String.append (Number_toString (red color))
       (String.append ","%string
          (String.append (Number_toString (green color))
             (String.append ","%string
                (String.append (Number_toString (blue color)) ")"%string))))).

Definition calculateDistanceColor {NF : NumberFormat} (distanceKm : Q)
  : String.string :=
  let interpolationRatio := clamp (distanceKm / MAX_DISTANCE_KM) 0 1 in
  rgbToString (interpolateColor CLOSE_COLOR FAR_COLOR interpolationRatio).

(** The reactive state of the page. *)
Record PageState := mkPageState {
  currentAngle : Q;
  playing : bool;
  animationSpeed : Q
}.

Definition initialPage : PageState := mkPageState 187 true 500.

(** The delay the effect passes to [setInterval]. *)
Definition intervalDelayMs (st : PageState) : Q := 500 - animationSpeed st + 10.

(** What can happen to the page: the interval fires, the button is pressed,
    a slider is moved. *)
Inductive PageEvent :=
| Tick
| TogglePlay
| SetAngle (value : Q)
| SetSpeed (value : Q).

(** The interval exists only while [playing] (the effect returns early
    otherwise and its cleanup clears the interval). *)
Definition pageStep (st : PageState) (ev : PageEvent) : PageState :=
  match ev with
  | Tick =>
      if playing st then
        mkPageState (js_rem (currentAngle st + 1) 360) (playing st)
          (animationSpeed st)
      else st
  | TogglePlay =>
      mkPageState (currentAngle st) (negb (playing st)) (animationSpeed st)
  | SetAngle value => mkPageState value (playing st) (animationSpeed st)
  | SetSpeed value => mkPageState (currentAngle st) (playing st) value
  end.

Definition pageRun (st : PageState) (events : list PageEvent) : PageState :=
  fold_left pageStep events st.

(** The values the two range inputs can deliver: [min="0" max="359"] and
    [min="10" max="500"], whole steps. *)
Definition sliderValue (lo hi : Z) (value : Q) : Prop :=
  exists z : Z, value = inject_Z z /\ (lo <= z <= hi)%Z.

Definition deliverable (ev : PageEvent) : Prop :=
  match ev with
  | SetAngle value => sliderValue 0 359 value
  | SetSpeed value => sliderValue 10 500 value
  | _ => True
  end.

(** The angle is a whole degree of the dataset and the speed a value of
    its slider. *)
Definition pageInvariant (st : PageState) : Prop :=
  (exists z : Z, (0 <= z <= 359)%Z /\ currentAngle st == inject_Z z) /\
  sliderValue 10 500 (animationSpeed st).

(** [viewpoints[currentAngle]] *)
Definition currentViewpoint (viewpoints : list Viewpoint) (st : PageState)
  : option Viewpoint :=
  if Qeq_bool (currentAngle st) (inject_Z (Qfloor (currentAngle st))) then
    (if Qlt_le_dec (currentAngle st) 0 then None
     else nth_error viewpoints (Z.to_nat (Qfloor (currentAngle st))))
  else None.

(** ** Facts about floor, trunc and remainder *)

Lemma inject_Z_lt_succ (a b : Z) :
  inject_Z a < inject_Z b + 1 -> (a <= b)%Z.
Proof.
  intros H.
  assert (H1 : inject_Z a < inject_Z (b + 1)).
  { rewrite inject_Z_plus. exact H. }
  rewrite <- Zlt_Qlt in H1. lia.
Qed.

Lemma Qfloor_bounds (x : Q) :
  inject_Z (Qfloor x) <= x /\ x < inject_Z (Qfloor x) + 1.
Proof.
  split; [apply Qfloor_le|].
  pose proof (Qlt_floor x) as H. rewrite inject_Z_plus in H. exact H.
Qed.

Lemma Qceiling_bounds (x : Q) :
  inject_Z (Qceiling x) - 1 < x /\ x <= inject_Z (Qceiling x).
Proof.
  split; [|apply Qle_ceiling].
  pose proof (Qceiling_lt x) as H.
  unfold Z.sub in H. rewrite inject_Z_plus in H. exact H.
Qed.

Lemma Qfloor_unique (x : Q) (z : Z) :
  inject_Z z <= x -> x < inject_Z z + 1 -> Qfloor x = z.
Proof.
  intros Hlo Hhi. destruct (Qfloor_bounds x) as [Flo Fhi].
  apply Z.le_antisymm; apply inject_Z_lt_succ; lra.
Qed.

Lemma Qfloor_add_Z (x : Q) (z : Z) :
  Qfloor (x + inject_Z z) = (Qfloor x + z)%Z.
Proof.
  destruct (Qfloor_bounds x) as [Flo Fhi].
  apply Qfloor_unique; rewrite inject_Z_plus; lra.
Qed.

Lemma div360 (a : Q) : a == 360 * (a / 360).
Proof. field. Qed.

#[global] Instance Qtrunc_comp : Proper (Qeq ==> eq) Qtrunc.
Proof.
  intros x y E. unfold Qtrunc.
  destruct (Qlt_le_dec x 0), (Qlt_le_dec y 0); try lra.
  - unfold Qceiling. now rewrite E.
  - now rewrite E.
Qed.

#[global] Instance js_rem_comp : Proper (Qeq ==> Qeq ==> Qeq) js_rem.
Proof.
  intros a a' Ea n n' En. unfold js_rem.
  assert (T : Qtrunc (a / n) = Qtrunc (a' / n'))
    by (apply Qtrunc_comp; rewrite Ea, En; reflexivity).
  rewrite T, Ea, En. reflexivity.
Qed.

(** On a non-negative dividend [% 360] is the floored remainder. *)
Lemma js_rem_360_nonneg (a : Q) :
  0 <= a ->
  js_rem a 360 == a - 360 * inject_Z (Qfloor (a / 360)) /\
  0 <= js_rem a 360 < 360.
Proof.
  intros Ha. unfold js_rem, Qtrunc.
  pose proof (div360 a) as D.
  destruct (Qlt_le_dec (a / 360) 0) as [L|L]; [lra|].
  destruct (Qfloor_bounds (a / 360)) as [Flo Fhi].
  split; [reflexivity|]. lra.
Qed.

(** On any dividend [% 360] removes an integer number of turns and stays
    strictly inside (-360, 360). *)
Lemma js_rem_360_any (a : Q) :
  js_rem a 360 == a - 360 * inject_Z (Qtrunc (a / 360)) /\
  -360 < js_rem a 360 < 360.
Proof.
  unfold js_rem at 1 2 3. split; [reflexivity|].
  pose proof (div360 a) as D. unfold Qtrunc.
  destruct (Qlt_le_dec (a / 360) 0) as [L|L].
  - destruct (Qceiling_bounds (a / 360)) as [Clo Chi]. lra.
  - destruct (Qfloor_bounds (a / 360)) as [Flo Fhi]. lra.
Qed.

Lemma normalizeAngle_turns (a : Q) :
  exists k : Z,
    normalizeAngle a == a - 360 * inject_Z k /\ 0 <= normalizeAngle a < 360.
Proof.
  unfold normalizeAngle.
  destruct (js_rem_360_any a) as [E1 B1].
  set (r := js_rem a 360) in *. clearbody r.
  destruct (js_rem_360_nonneg (r + 360)) as [E2 B2]; [lra|].
  exists (Qtrunc (a / 360) - 1 + Qfloor ((r + 360) / 360))%Z.
  split; [|exact B2].
  rewrite E2. rewrite !inject_Z_plus. unfold Z.sub.
  rewrite inject_Z_plus. change (inject_Z (Z.opp 1%Z)) with (-1). lra.
Qed.

#[global] Instance normalizeAngle_comp : Proper (Qeq ==> Qeq) normalizeAngle.
Proof. intros x y E. unfold normalizeAngle. now rewrite E. Qed.

Lemma normalizeRelativeDirection_range (x : Q) :
  -540 <= x <= 540 ->
  -180 <= normalizeRelativeDirection x <= 180.
Proof.
  unfold normalizeRelativeDirection.
  destruct (Qlt_le_dec 180 x); [lra|].
  destruct (Qlt_le_dec x (-180)); lra.
Qed.

(** ** Concrete values *)

Example normalizeAngle_values :
  normalizeAngle (-45) == 315 /\ normalizeAngle 725 == 5 /\
  normalizeAngle 360 == 0 /\ normalizeAngle (-360) == 0.
Proof. repeat split; reflexivity. Qed.

Example normalizeRelativeDirection_values :
  normalizeRelativeDirection 200 == -160 /\
  normalizeRelativeDirection (-200) == 160 /\
  normalizeRelativeDirection 180 == 180 /\
  normalizeRelativeDirection (-180) == -180.
Proof. repeat split; reflexivity. Qed.

Example Math_round_values :
  Math_round (5 # 2) = 3 /\ Math_round (- (5 # 2)) = -2 /\
  Math_round (3594 # 10) = 359 /\ Math_round (3595 # 10) = 360.
Proof. repeat split; reflexivity. Qed.

Example calculateDirectionRange_10 :
  calculateDirectionRange 10 = {| range_start := 325; range_end := 55 |} /\
  rangeWrapsAroundNorth (calculateDirectionRange 10) = true.
Proof. split; reflexivity. Qed.

Example Array_sort_is_stable :
  Array_sort (fun a b => fst a - fst b)
    [(3, 1%nat); (1, 2%nat); (3, 3%nat); (2, 4%nat); (1, 5%nat)] =
  [(1, 2%nat); (1, 5%nat); (2, 4%nat); (3, 1%nat); (3, 3%nat)].
Proof. reflexivity. Qed.

(** Bearing 10 over flat terrain: the two queries of the wrapped window
    and the 91 relative directions -45 .. 45. *)
Example horizon_at_bearing_10 :
  let run := calculateHorizonForViewpoint flatTerrain PEAK 10 (mkWorld tt []) in
  map q_startDir (query_log (snd run)) = [325; 0] /\
  map q_endDir (query_log (snd run)) = [359; 55] /\
  map relativeDirection (fst run) =
    map (fun k => inject_Z (Z.of_nat k - 45)) (seq 0 91).
Proof. vm_compute. repeat split; reflexivity. Qed.

(** ** The direction-range planner on the integer grid *)

(** Flooring after normalising a bearing shifted by an integer number of
    degrees is integer arithmetic modulo 360 on the floor of the bearing. *)
Lemma Qfloor_normalizeAngle_shift (b : Q) (d : Z) :
  Qfloor (normalizeAngle (b + inject_Z d)) = ((Qfloor b + d) mod 360)%Z.
Proof.
  destruct (normalizeAngle_turns (b + inject_Z d)) as (k & E & Lo & Hi).
  assert (F : Qfloor (normalizeAngle (b + inject_Z d)) =
              (Qfloor b + (d - 360 * k))%Z).
  { rewrite <- Qfloor_add_Z. apply Qfloor_comp. rewrite E.
    unfold Z.sub. rewrite inject_Z_plus, inject_Z_opp, inject_Z_mult.
    change (inject_Z 360) with 360. lra. }
  destruct (Qfloor_bounds (normalizeAngle (b + inject_Z d))) as [Flo Fhi].
  assert (R0 : (0 <= Qfloor (normalizeAngle (b + inject_Z d)))%Z).
  { change 0%Z with (Qfloor 0). now apply Qfloor_resp_le. }
  assert (R1 : (Qfloor (normalizeAngle (b + inject_Z d)) < 360)%Z).
  { rewrite Zlt_Qlt. change (inject_Z 360) with 360. lra. }
  rewrite F in *.
  apply (Z.mod_unique _ _ k); lia.
Qed.

Lemma calculateDirectionRange_grid (b : Q) :
  calculateDirectionRange b =
  {| range_start := inject_Z ((Qfloor b - 45) mod 360);
     range_end := inject_Z ((Qfloor b + 45) mod 360) |}.
Proof.
  unfold calculateDirectionRange, Math_floor, HALF_FOV_DEGREES.
  f_equal; f_equal.
  - replace (Qfloor b - 45)%Z with (Qfloor b + -45)%Z by lia.
    rewrite <- (Qfloor_normalizeAngle_shift b (-45)).
    apply Qfloor_comp. apply normalizeAngle_comp.
    change (inject_Z (-45)) with (-45). lra.
  - rewrite <- (Qfloor_normalizeAngle_shift b 45).
    reflexivity.
Qed.

(** ** [Array.prototype.sort] with a difference comparator *)

Section SortByKey.
Context {A : Type} (key : A -> Q).

Let cmp (a b : A) : Q := key a - key b.
Let ascending (a b : A) : Prop := key a <= key b.

Lemma sort_insert_perm (c : A -> A -> Q) (x : A) (l : list A) :
  Permutation (sort_insert c x l) (x :: l).
Proof.
  induction l as [|y l IH]; cbn [sort_insert]; [reflexivity|].
  destruct (Qlt_le_dec 0 (c x y)); [|reflexivity].
  rewrite IH. apply perm_swap.
Qed.

Lemma Array_sort_perm (c : A -> A -> Q) (l : list A) :
  Permutation (Array_sort c l) l.
Proof.
  induction l as [|x l IH]; cbn [Array_sort]; [reflexivity|].
  rewrite sort_insert_perm. now constructor.
Qed.

Lemma sort_insert_sorted (x : A) (l : list A) :
  StronglySorted ascending l -> StronglySorted ascending (sort_insert cmp x l).
Proof.
  induction 1 as [|y l Hs IH Hy]; cbn [sort_insert].
  - repeat constructor.
  - unfold cmp at 1. destruct (Qlt_le_dec 0 (key x - key y)) as [G|G].
    + constructor; [exact IH|].
      rewrite (sort_insert_perm cmp x l). constructor; [|exact Hy].
      unfold ascending. lra.
    + constructor; [now constructor|].
      assert (Hxy : ascending x y) by (unfold ascending; lra).
      constructor; [exact Hxy|].
      eapply Forall_impl; [|exact Hy].
      unfold ascending in *. intros z Hz. lra.
Qed.

Lemma Array_sort_sorted (l : list A) :
  StronglySorted ascending (Array_sort cmp l).
Proof.
  induction l as [|x l IH]; cbn [Array_sort]; [constructor|].
  now apply sort_insert_sorted.
Qed.
End SortByKey.

(** [Math.round] yields the nearest integer. *)
Lemma Math_round_nearest (b : Q) :
  Math_round b = inject_Z (Qfloor (b + (1 # 2))) /\
  b - (1 # 2) < Math_round b /\ Math_round b <= b + (1 # 2).
Proof.
  unfold Math_round. destruct (Qfloor_bounds (b + (1 # 2))) as [Lo Hi].
  split; [reflexivity|]. lra.
Qed.

(** ** The horizon transformer *)

(** C4.  For every list of raw samples and every bearing [b], the output of
    the map-then-sort step consists of the transformed input samples (with
    multiplicity); a transformed sample has
    [relativeDirection = normalizeRelativeDirection (direction - round b)],
    with [round b] the nearest integer, and the elevation angle and distance
    of the raw sample; and the output is sorted ascending by
    [relativeDirection]. *)
Theorem relativeHorizon_spec (points : list RawHorizonPoint) (b : Q) :
  Permutation (relativeHorizon points b)
              (map (fun point => transformToRelativeDirection point b) points) /\
  Forall (fun h => exists point, In point points /\
            relativeDirection h =
              normalizeRelativeDirection (direction point - Math_round b) /\
            elevationAngleDegrees h = raw_elevationAngleDegrees point /\
            distance_km h = raw_distance_km point)
         (relativeHorizon points b) /\
  (b - (1 # 2) < Math_round b <= b + (1 # 2) /\
   Math_round b = inject_Z (Qfloor (Math_round b))) /\
  StronglySorted (fun h1 h2 => relativeDirection h1 <= relativeDirection h2)
                 (relativeHorizon points b).
Proof.
  assert (P : Permutation (relativeHorizon points b)
                (map (fun point => transformToRelativeDirection point b) points))
    by apply Array_sort_perm.
  split; [exact P|]. split; [|split].
  - eapply Permutation_Forall; [symmetry; exact P|].
    apply Forall_forall. intros h Hin.
    apply in_map_iff in Hin. destruct Hin as (point & <- & Hin).
    exists point. now repeat split.
  - destruct (Math_round_nearest b) as (E & Lo & Hi).
    split; [now split|]. unfold Math_round. now rewrite Qfloor_Z.
  - apply (Array_sort_sorted relativeDirection).
Qed.

(** ** Queries issued for one viewpoint *)

Lemma calculateDirectionRange_bounds (b : Q) :
  exists s e : Z,
    calculateDirectionRange b =
      {| range_start := inject_Z s; range_end := inject_Z e |} /\
    s = ((Qfloor b - 45) mod 360)%Z /\ e = ((Qfloor b + 45) mod 360)%Z /\
    (0 <= s < 360)%Z /\ (0 <= e < 360)%Z.
Proof.
  exists ((Qfloor b - 45) mod 360)%Z, ((Qfloor b + 45) mod 360)%Z.
  split; [apply calculateDirectionRange_grid|].
  repeat split; try apply Z.mod_pos_bound; lia.
Qed.

Section Queries.
Context {S : Type} (elevation : ElevationData S).

(** The two shapes of a run of [calculateHorizonForViewpoint]. *)
Lemma calculateHorizonForViewpoint_cases (vp : Coordinate) (b : Q) (w : World S) :
  let range := calculateDirectionRange b in
  let lat := latitude vp in
  let lon := longitude vp in
  let single :=
    calculateHorizon elevation lat lon (range_start range) (range_end range)
      (handle_state w) in
  let first :=
    calculateHorizon elevation lat lon (range_start range) 359 (handle_state w) in
  let second :=
    calculateHorizon elevation lat lon 0 (range_end range) (snd first) in
  calculateHorizonForViewpoint elevation vp b w =
    if rangeWrapsAroundNorth range then
      (relativeHorizon (fst first ++ fst second) b,
       mkWorld (snd second)
         (query_log w ++
          [mkHorizonQuery lat lon (range_start range) 359;
           mkHorizonQuery lat lon 0 (range_end range)]))
    else
      (relativeHorizon (fst single) b,
       mkWorld (snd single)
         (query_log w ++
          [mkHorizonQuery lat lon (range_start range) (range_end range)])).
Proof.
  intros range lat lon single first second.
  subst lat lon single first second.
  unfold calculateHorizonForViewpoint, rawPoints.
  fold range. destruct (rangeWrapsAroundNorth range).
  - unfold bind, call_calculateHorizon, ret.
    destruct (calculateHorizon elevation _ _ (range_start range) 359 _)
      as [r1 s1].
    cbn [fst snd handle_state query_log].
    destruct (calculateHorizon elevation _ _ 0 (range_end range) s1)
      as [r2 s2].
    cbn [fst snd]. now rewrite <- app_assoc.
  - unfold bind, call_calculateHorizon, ret.
    now destruct (calculateHorizon elevation _ _ _ _ _).
Qed.

Lemma rangeWrapsAroundNorth_grid (s e : Z) :
  rangeWrapsAroundNorth {| range_start := inject_Z s; range_end := inject_Z e |}
  = (e <? s)%Z.
Proof.
  unfold rangeWrapsAroundNorth. cbn [range_start range_end].
  destruct (Qlt_le_dec (inject_Z e) (inject_Z s)) as [G|G];
    [rewrite <- Zlt_Qlt in G | rewrite <- Zle_Qle in G];
    symmetry; [apply Z.ltb_lt | apply Z.ltb_ge]; exact G.
Qed.

(** C3.  For every bearing: when [start <= end] the function issues exactly
    one query, over [start, end]; when [start > end] it issues exactly two,
    [start, 359] and then [0, end], the second on the handle as the first
    left it, and the raw samples are the two results concatenated in that
    order; in that case no query over [start, end] is issued. *)
Theorem wraparound_split (vp : Coordinate) (b : Q) (w : World S) :
  let range := calculateDirectionRange b in
  let lat := latitude vp in
  let lon := longitude vp in
  let single :=
    calculateHorizon elevation lat lon (range_start range) (range_end range)
      (handle_state w) in
  let first :=
    calculateHorizon elevation lat lon (range_start range) 359 (handle_state w) in
  let second :=
    calculateHorizon elevation lat lon 0 (range_end range) (snd first) in
  (range_start range <= range_end range ->
   calculateHorizonForViewpoint elevation vp b w =
     (relativeHorizon (fst single) b,
      mkWorld (snd single)
        (query_log w ++
         [mkHorizonQuery lat lon (range_start range) (range_end range)]))) /\
  (range_end range < range_start range ->
   calculateHorizonForViewpoint elevation vp b w =
     (relativeHorizon (fst first ++ fst second) b,
      mkWorld (snd second)
        (query_log w ++
         [mkHorizonQuery lat lon (range_start range) 359;
          mkHorizonQuery lat lon 0 (range_end range)])) /\
   ~ In (mkHorizonQuery lat lon (range_start range) (range_end range))
        [mkHorizonQuery lat lon (range_start range) 359;
         mkHorizonQuery lat lon 0 (range_end range)]).
Proof.
  intros range lat lon single first second.
  pose proof (calculateHorizonForViewpoint_cases vp b w) as C.
  cbv zeta in C. fold range lat lon in C. fold single first in C. fold second in C.
  unfold rangeWrapsAroundNorth in C.
  split; intros Hcmp.
  - destruct (Qlt_le_dec (range_end range) (range_start range)) as [G|G]; [lra|].
    exact C.
  - destruct (Qlt_le_dec (range_end range) (range_start range)) as [G|G]; [|lra].
    split; [exact C|].
    destruct (calculateDirectionRange_bounds b) as (s & e & E & _ & _ & Hs & He).
    clear C. subst range. rewrite E in *. cbn [range_start range_end] in *.
    clear Hcmp. rewrite <- Zlt_Qlt in G.
    intros [H|[H|[]]]; injection H as H; lia.
Qed.
End Queries.

Lemma wraparound_split_witness :
  calculateHorizonForViewpoint flatTerrain PEAK 90 (mkWorld tt []) =
    (relativeHorizon
       (fst (calculateHorizon flatTerrain (latitude PEAK) (longitude PEAK)
               45 135 tt)) 90,
     mkWorld tt [mkHorizonQuery (latitude PEAK) (longitude PEAK) 45 135]) /\
  calculateHorizonForViewpoint flatTerrain PEAK 0 (mkWorld tt []) =
    (relativeHorizon
       (fst (calculateHorizon flatTerrain (latitude PEAK) (longitude PEAK)
               315 359 tt) ++
        fst (calculateHorizon flatTerrain (latitude PEAK) (longitude PEAK)
               0 45 tt)) 0,
     mkWorld tt [mkHorizonQuery (latitude PEAK) (longitude PEAK) 315 359;
                 mkHorizonQuery (latitude PEAK) (longitude PEAK) 0 45]).
Proof.
  split.
  - apply (proj1 (wraparound_split flatTerrain PEAK 90 (mkWorld tt []))).
    vm_compute. discriminate.
  - apply (proj2 (wraparound_split flatTerrain PEAK 0 (mkWorld tt []))).
    vm_compute. reflexivity.
Defined.

(** ** The degrees of a window *)

Lemma degreesBetween_length (s e : Z) :
  length (degreesBetween s e) = Z.to_nat (e - s + 1).
Proof. unfold degreesBetween. now rewrite length_map, length_seq. Qed.

Lemma degreesBetween_In (s e d : Z) :
  In d (degreesBetween s e) <-> (s <= d <= e)%Z.
Proof.
  unfold degreesBetween. rewrite in_map_iff. split.
  - intros (k & <- & Hk). apply in_seq in Hk. lia.
  - intros Hd. exists (Z.to_nat (d - s)). split; [lia|].
    apply in_seq. lia.
Qed.

Lemma degreesBetween_NoDup (s e : Z) : NoDup (degreesBetween s e).
Proof.
  unfold degreesBetween. apply Finite.Injective_map_NoDup.
  - intros j k H. lia.
  - apply seq_NoDup.
Qed.


(** The window of a bearing on the integer grid: both bounds are compass
    degrees and the end lies 90 degrees clockwise of the start. *)
Lemma window_grid (b : Q) :
  exists s e : Z,
    calculateDirectionRange b =
      {| range_start := inject_Z s; range_end := inject_Z e |} /\
    (0 <= s < 360)%Z /\ (0 <= e < 360)%Z /\
    ((e - s) mod 360 = 90)%Z /\
    ((if (e <? s)%Z then (360 - s) + (e + 1) else e - s + 1) = 91)%Z.
Proof.
  destruct (calculateDirectionRange_bounds b) as (s & e & E & Es & Ee & Hs & He).
  exists s, e. split; [exact E|]. split; [exact Hs|]. split; [exact He|].
  assert (M : ((e - s) mod 360 = 90)%Z).
  { subst s e. clear. generalize (Qfloor b). intros f.
    Z.div_mod_to_equations. lia. }
  split; [exact M|].
  destruct (Z.ltb_spec e s); Z.div_mod_to_equations; lia.
Qed.

Section Window.
Context {S : Type} (elevation : ElevationData S).

(** The queries issued for one viewpoint, with integer bounds. *)
Lemma issued_queries (vp : Coordinate) (b : Q) (w : World S) :
  exists s e : Z,
    calculateDirectionRange b =
      {| range_start := inject_Z s; range_end := inject_Z e |} /\
    (0 <= s < 360)%Z /\ (0 <= e < 360)%Z /\
    ((if (e <? s)%Z then (360 - s) + (e + 1) else e - s + 1) = 91)%Z /\
    query_log (snd (calculateHorizonForViewpoint elevation vp b w)) =
      query_log w ++
      (if (e <? s)%Z then
         [mkHorizonQuery (latitude vp) (longitude vp) (inject_Z s) (inject_Z 359);
          mkHorizonQuery (latitude vp) (longitude vp) (inject_Z 0) (inject_Z e)]
       else
         [mkHorizonQuery (latitude vp) (longitude vp) (inject_Z s) (inject_Z e)]).
Proof.
  destruct (window_grid b) as (s & e & E & Hs & He & _ & H91).
  exists s, e. repeat (split; [assumption|]).
  pose proof (calculateHorizonForViewpoint_cases elevation vp b w) as C.
  cbv zeta in C. rewrite E in C. rewrite rangeWrapsAroundNorth_grid in C.
  cbn [range_start range_end] in C. rewrite C.
  now destruct (e <? s)%Z.
Qed.

End Window.

(** ** Strictly ascending horizons *)

(** A single one-turn correction is injective on values less than a turn
    apart: two compass degrees with the same relative direction are equal. *)
Lemma relative_direction_injective (r : Q) (z1 z2 : Z) :
  (0 <= z1 <= 359)%Z -> (0 <= z2 <= 359)%Z ->
  normalizeRelativeDirection (inject_Z z1 - r) ==
  normalizeRelativeDirection (inject_Z z2 - r) ->
  z1 = z2.
Proof.
  intros [L1 U1] [L2 U2] H.
  rewrite Zle_Qle in L1, U1, L2, U2.
  change (inject_Z 0) with 0 in *. change (inject_Z 359) with 359 in *.
  apply inject_Z_injective. revert H. unfold normalizeRelativeDirection.
  destruct (Qlt_le_dec 180 (inject_Z z1 - r));
    destruct (Qlt_le_dec 180 (inject_Z z2 - r));
    try destruct (Qlt_le_dec (inject_Z z1 - r) (-180));
    try destruct (Qlt_le_dec (inject_Z z2 - r) (-180));
    intros H; lra.
Qed.

(** A list sorted by [<=] whose keys are the relative directions of
    pairwise distinct compass degrees is sorted by [<]. *)
Lemma sorted_distinct_strict (r : Q) (out : list HorizonPoint) :
  forall ds : list Z,
    map relativeDirection out =
      map (fun d => normalizeRelativeDirection (inject_Z d - r)) ds ->
    NoDup ds -> Forall (fun d => (0 <= d <= 359)%Z) ds ->
    StronglySorted keyLe out -> StronglySorted keyLt out.
Proof.
  induction out as [|h out IH]; intros ds E Hnd Hr Hs; [constructor|].
  destruct ds as [|z ds]; [discriminate|].
  cbn [map] in E. injection E as Eh Et.
  inversion Hnd as [|? ? Hz Hnd']; subst.
  inversion Hr as [|? ? Rz Rds]; subst.
  inversion Hs as [|? ? Hs' Hle]; subst.
  constructor; [now apply (IH ds)|].
  apply Forall_forall. intros h' Hin.
  assert (Le : keyLe h h') by (rewrite Forall_forall in Hle; now apply Hle).
  assert (K : In (relativeDirection h') (map relativeDirection out))
    by now apply in_map.
  rewrite Et in K. apply in_map_iff in K. destruct K as (z' & Ez' & Hz').
  assert (Rz' : (0 <= z' <= 359)%Z)
    by (rewrite Forall_forall in Rds; now apply Rds).
  unfold keyLe, keyLt in *.
  destruct (Qeq_dec (relativeDirection h) (relativeDirection h')) as [Q|Q];
    [|lra].
  exfalso. apply Hz. rewrite Eh, <- Ez' in Q.
  now rewrite (relative_direction_injective r z z' Rz Rz' Q).
Qed.

Lemma relativeHorizon_strict (points : list RawHorizonPoint) (b : Q)
    (ds : list Z) :
  Permutation (map direction points) (map inject_Z ds) ->
  NoDup ds -> Forall (fun d => (0 <= d <= 359)%Z) ds ->
  StronglySorted keyLt (relativeHorizon points b).
Proof.
  intros P Hnd Hr.
  set (g := fun q : Q => normalizeRelativeDirection (q - Math_round b)).
  assert (K : Permutation (map relativeDirection (relativeHorizon points b))
                (map (fun d => g (inject_Z d)) ds)).
  { unfold relativeHorizon. rewrite Array_sort_perm.
    rewrite map_map. cbn [transformToRelativeDirection relativeDirection].
    rewrite <- (map_map inject_Z g). rewrite <- P. now rewrite map_map. }
  apply Permutation_map_inv in K. destruct K as (ds' & E & Pd).
  apply (sorted_distinct_strict (Math_round b) _ ds').
  - exact E.
  - eapply Permutation_NoDup; [exact Pd|exact Hnd].
  - eapply Permutation_Forall; [exact Pd|exact Hr].
  - apply (Array_sort_sorted relativeDirection).
Qed.

Lemma flatTerrain_onePerDegree : onePerDegree flatTerrain.
Proof.
  intros lat lon s e st _ _ _. cbn [flatTerrain calculateHorizon fst].
  rewrite !Qfloor_Z, map_map. cbn [direction]. reflexivity.
Qed.

Section Horizon.
Context {ML : MathLib} {S : Type} (elevation : ElevationData S).
Hypothesis Hgrid : onePerDegree elevation.

Lemma horizon_raw_directions (vp : Coordinate) (b : Q) (w : World S) :
  exists (points : list RawHorizonPoint) (ds : list Z),
    fst (calculateHorizonForViewpoint elevation vp b w) =
      relativeHorizon points b /\
    Permutation (map direction points) (map inject_Z ds) /\
    NoDup ds /\ Forall (fun d => (0 <= d <= 359)%Z) ds.
Proof.
  destruct (window_grid b) as (s & e & E & Hs & He & _ & _).
  pose proof (calculateHorizonForViewpoint_cases elevation vp b w) as C.
  cbv zeta in C. rewrite E in C. rewrite rangeWrapsAroundNorth_grid in C.
  cbn [range_start range_end] in C. rewrite C. clear C.
  destruct (Z.ltb_spec e s) as [W|W]; cbn [fst].
  - eexists. exists (degreesBetween s 359 ++ degreesBetween 0 e).
    split; [reflexivity|]. split; [|split].
    + rewrite !map_app. apply Permutation_app.
      * apply (Hgrid _ _ s 359%Z); lia.
      * apply (Hgrid _ _ 0%Z e); lia.
    + apply NoDup_app; try apply degreesBetween_NoDup.
      intros d H1 H2. apply degreesBetween_In in H1, H2. lia.
    + apply Forall_forall. intros d Hd. apply in_app_or in Hd.
      destruct Hd as [Hd|Hd]; apply degreesBetween_In in Hd; lia.
  - eexists. exists (degreesBetween s e).
    split; [reflexivity|]. split; [|split].
    + apply Hgrid; lia.
    + apply degreesBetween_NoDup.
    + apply Forall_forall. intros d Hd. apply degreesBetween_In in Hd. lia.
Qed.

Lemma calculateHorizonForViewpoint_strict (vp : Coordinate) (b : Q) (w : World S) :
  StronglySorted keyLt (fst (calculateHorizonForViewpoint elevation vp b w)).
Proof.
  destruct (horizon_raw_directions vp b w) as (points & ds & E & P & Hnd & Hr).
  rewrite E. now apply (relativeHorizon_strict points b ds).
Qed.

Lemma generateViewpoint_strict (a : Q) (w : World S) :
  StronglySorted keyLt (horizon (fst (generateViewpoint elevation a w))).
Proof.
  unfold generateViewpoint, bind, ret.
  pose proof (calculateHorizonForViewpoint_strict
                (calculateDestinationPoint PEAK DISTANCE_KM a)
                (calculateBearing (calculateDestinationPoint PEAK DISTANCE_KM a) PEAK)
                w) as H.
  destruct (calculateHorizonForViewpoint elevation _ _ w) as [h w'].
  exact H.
Qed.

Lemma generateEach_strict (angles : list Q) :
  forall w : World S,
    Forall (fun v => StronglySorted keyLt (horizon v))
           (fst (generateEach elevation angles w)).
Proof.
  induction angles as [|a angles IH]; intros w; cbn [generateEach].
  - constructor.
  - unfold bind, ret. pose proof (generateViewpoint_strict a w) as Hv.
    destruct (generateViewpoint elevation a w) as [v w1].
    pose proof (IH w1) as Hrest.
    destruct (generateEach elevation angles w1) as [vs w2].
    cbn [fst] in *. now constructor.
Qed.

(** C6.  Assume the collaborator answers every query over an inclusive range
    of compass degrees with exactly one sample per integer degree of the
    range.  Then the horizon computed for any viewpoint and bearing, the
    horizon of every generated Viewpoint, and the horizon of every Viewpoint
    of a built dataset are sorted strictly ascending by [relativeDirection]:
    ascending, and no two samples share a direction. *)
Theorem horizon_strictly_ascending :
  (forall vp b (w : World S),
     StronglySorted keyLt (fst (calculateHorizonForViewpoint elevation vp b w))) /\
  (forall a (w : World S),
     StronglySorted keyLt (horizon (fst (generateViewpoint elevation a w)))) /\
  (forall w : World S,
     Forall (fun v => StronglySorted keyLt (horizon v))
            (fst (buildDataset elevation w))).
Proof.
  split; [|split].
  - apply calculateHorizonForViewpoint_strict.
  - apply generateViewpoint_strict.
  - intros w. apply generateEach_strict.
Qed.
End Horizon.

Lemma horizon_strictly_ascending_witness :
  StronglySorted keyLt
    (horizon (fst (generateViewpoint (ML := coarseMath) flatTerrain 0
                     (mkWorld tt [])))).
Proof.
  apply (horizon_strictly_ascending (ML := coarseMath) flatTerrain
           flatTerrain_onePerDegree).
Defined.

(** ** Determinism of the viewpoint generator *)

Section Determinism.
Context {ML : MathLib} {S : Type} (elevation : ElevationData S).
Hypothesis Hpure : pureHandle elevation.

Lemma calculateHorizonForViewpoint_pure (vp : Coordinate) (b : Q)
    (w w' : World S) :
  fst (calculateHorizonForViewpoint elevation vp b w) =
  fst (calculateHorizonForViewpoint elevation vp b w').
Proof.
  rewrite (calculateHorizonForViewpoint_cases elevation vp b w).
  rewrite (calculateHorizonForViewpoint_cases elevation vp b w').
  cbv zeta. destruct (rangeWrapsAroundNorth (calculateDirectionRange b));
    cbn [fst]; f_equal.
  - f_equal; apply Hpure.
  - apply Hpure.
Qed.

Lemma generateViewpoint_pure (a : Q) (w w' : World S) :
  fst (generateViewpoint elevation a w) = fst (generateViewpoint elevation a w').
Proof.
  unfold generateViewpoint, bind, ret.
  pose proof (calculateHorizonForViewpoint_pure
                (calculateDestinationPoint PEAK DISTANCE_KM a)
                (calculateBearing (calculateDestinationPoint PEAK DISTANCE_KM a) PEAK)
                w w') as H.
  destruct (calculateHorizonForViewpoint elevation _ _ w) as [h1 w1].
  destruct (calculateHorizonForViewpoint elevation _ _ w') as [h2 w2].
  cbn [fst] in *. now rewrite H.
Qed.

(** C9.  For a handle whose [calculateHorizon] answers do not depend on the
    handle's state, and for every angle [a] (in particular every [a] in
    [0, 360)): [generateViewpoint] yields the same Viewpoint from any two
    states of the world, and a second call, made in the world the first call
    left behind, yields the same Viewpoint as the first, component by
    component. *)
Theorem generateViewpoint_deterministic (a : Q) (w w' : World S) :
  fst (generateViewpoint elevation a w) = fst (generateViewpoint elevation a w') /\
  (let first := generateViewpoint elevation a w in
   let second := generateViewpoint elevation a (snd first) in
   fst second = fst first /\
   viewpoint (fst second) = viewpoint (fst first) /\
   bearingToPeak (fst second) = bearingToPeak (fst first) /\
   horizon (fst second) = horizon (fst first)).
Proof.
  split; [apply generateViewpoint_pure|].
  cbv zeta.
  assert (E : fst (generateViewpoint elevation a
                     (snd (generateViewpoint elevation a w))) =
              fst (generateViewpoint elevation a w))
    by apply generateViewpoint_pure.
  now rewrite E.
Qed.
End Determinism.

Lemma flatTerrain_pure : pureHandle flatTerrain.
Proof. intros lat lon s e [] []. reflexivity. Qed.

Lemma generateViewpoint_deterministic_witness :
  let first := generateViewpoint (ML := coarseMath) flatTerrain 7 (mkWorld tt []) in
  let second := generateViewpoint (ML := coarseMath) flatTerrain 7 (snd first) in
  fst second = fst first.
Proof.
  exact (proj1 (proj2 (generateViewpoint_deterministic (ML := coarseMath)
                         flatTerrain flatTerrain_pure 7
                         (mkWorld tt []) (mkWorld tt [])))).
Defined.

(** ** The single-flight cache *)

Section SingleFlightFacts.
Context {ML : MathLib} {CD : Codec} {HS : Type}.

Local Abbreviation State := (@ModuleState CD).
Local Abbreviation Ev := (@Event HS).

Lemma Shape_step (st : State) (e : Ev) : Shape HS st -> Shape HS (step HS st e).
Proof.
  intros Hs.
  destruct Hs as [|rs Hne Hrs|elevation s0 gz rs Egz Hrs|reason rs Hrs];
    destruct e as [|p elevation' s0'|p reason'];
    cbn [step generateAllViewpoints resumeLoaded resumeFailed initialState
         cachedGzip generationPromise promises returned loadCalls buildRuns
         length app].
  - apply ShPending; [discriminate|repeat constructor].
  - destruct p; cbn [nth_error]; apply ShEmpty.
  - destruct p; cbn [nth_error]; apply ShEmpty.
  - apply ShPending.
    + intros E. now apply app_eq_nil in E.
    + apply Forall_app. split; [exact Hrs|repeat constructor].
  - destruct p as [|p]; cbn [nth_error].
    + cbn [settle firstn skipn app].
      apply (ShReady HS elevation' s0'); [reflexivity|].
      eapply Forall_impl; [|exact Hrs]. intros r Hr. now left.
    + destruct p; cbn [nth_error]; now apply ShPending.
  - destruct p as [|p]; cbn [nth_error].
    + cbn [settle firstn skipn app]. now apply ShFailed.
    + destruct p; cbn [nth_error]; now apply ShPending.
  - apply (ShReady HS elevation s0); [exact Egz|].
    apply Forall_app. split; [exact Hrs|].
    constructor; [now right|constructor].
  - destruct p as [|p]; cbn [nth_error];
      [|destruct p; cbn [nth_error]]; now apply (ShReady HS elevation s0).
  - destruct p as [|p]; cbn [nth_error];
      [|destruct p; cbn [nth_error]]; now apply (ShReady HS elevation s0).
  - apply ShFailed. apply Forall_app. split; [exact Hrs|repeat constructor].
  - destruct p as [|p]; cbn [nth_error];
      [|destruct p; cbn [nth_error]]; now apply ShFailed.
  - destruct p as [|p]; cbn [nth_error];
      [|destruct p; cbn [nth_error]]; now apply ShFailed.
Qed.

Lemma Shape_run (events : list Ev) :
  forall st : State, Shape HS st -> Shape HS (run HS st events).
Proof.
  induction events as [|e events IH]; intros st Hs; cbn [run fold_left].
  - exact Hs.
  - apply IH. now apply Shape_step.
Qed.

Lemma Shape_reachable (events : list Ev) :
  Shape HS (run HS initialState events).
Proof. apply Shape_run. apply ShEmpty. Qed.

Lemma run_app (st : State) (es1 es2 : list Ev) :
  run HS st (es1 ++ es2) = run HS (run HS st es1) es2.
Proof. apply fold_left_app. Qed.
End SingleFlightFacts.

Section SingleFlightClaims.
Context {ML : MathLib} {CD : Codec} {HS : Type}.

Local Abbreviation State := (@ModuleState CD).
Local Abbreviation Ev := (@Event HS).

Lemma run_calls_pending (n : nat) :
  forall rs : list Returned,
    run HS (mkModuleState None (Some 0%nat) [Pending] rs 1 0) (repeat Call n) =
    mkModuleState None (Some 0%nat) [Pending]
      (rs ++ repeat (ReturnsPromise 0) n) 1 0.
Proof.
  induction n as [|n IH]; intros rs; cbn [repeat run fold_left].
  - now rewrite app_nil_r.
  - cbn [step generateAllViewpoints cachedGzip generationPromise promises
         returned loadCalls buildRuns].
    change (fold_left (step HS) ?es ?st) with (run HS st es).
    rewrite IH. now rewrite <- app_assoc.
Qed.

Lemma run_calls_ready (gz : Buffer) (m : nat) :
  forall rs : list Returned,
    run HS (mkModuleState (Some gz) (Some 0%nat) [Fulfilled gz] rs 1 1)
      (repeat Call m) =
    mkModuleState (Some gz) (Some 0%nat) [Fulfilled gz]
      (rs ++ repeat (ReturnsValue gz) m) 1 1.
Proof.
  induction m as [|m IH]; intros rs; cbn [repeat run fold_left].
  - now rewrite app_nil_r.
  - cbn [step generateAllViewpoints cachedGzip generationPromise promises
         returned loadCalls buildRuns].
    change (fold_left (step HS) ?es ?st) with (run HS st es).
    rewrite IH. now rewrite <- app_assoc.
Qed.

(** After a rejected load the module state never changes again, except that
    every further call is handed the rejected promise. *)
Lemma run_after_failure (reason : Error) (later : list Ev) :
  forall rs : list Returned,
    Forall (fun r => r = ReturnsPromise 0) rs ->
    exists rs',
      run HS (mkModuleState None (Some 0%nat) [Rejected reason] rs 1 0) later =
        mkModuleState None (Some 0%nat) [Rejected reason] rs' 1 0 /\
      Forall (fun r => r = ReturnsPromise 0) rs'.
Proof.
  induction later as [|e later IH]; intros rs Hrs; cbn [run fold_left].
  - now exists rs.
  - change (fold_left (step HS) ?es ?st) with (run HS st es).
    destruct e as [|p elevation s0|p reason'];
      cbn [step generateAllViewpoints resumeLoaded resumeFailed
           cachedGzip generationPromise promises returned loadCalls buildRuns].
    + apply IH. apply Forall_app. split; [exact Hrs|repeat constructor].
    + destruct p as [|p]; cbn [nth_error];
        [|destruct p; cbn [nth_error]]; now apply IH.
    + destruct p as [|p]; cbn [nth_error];
        [|destruct p; cbn [nth_error]]; now apply IH.
Qed.

(** N callers while the load is in flight, the load resolves, M callers
    afterwards: one load, one build, one artifact for all. *)
Lemma single_flight_scenario (n m : nat) (elevation : ElevationData HS) (s0 : HS) :
  let gz := compressToGzip (fst (buildDataset elevation (mkWorld s0 []))) in
  run HS initialState
    (repeat Call (Datatypes.S n) ++ LoadResolved 0 elevation s0 :: repeat Call m) =
  mkModuleState (Some gz) (Some 0%nat) [Fulfilled gz]
    (repeat (ReturnsPromise 0) (Datatypes.S n) ++ repeat (ReturnsValue gz) m) 1 1.
Proof.
  intros gz. rewrite run_app.
  assert (E1 : run HS initialState (repeat Call (Datatypes.S n)) =
               mkModuleState None (Some 0%nat) [Pending]
                 (repeat (ReturnsPromise 0) (Datatypes.S n)) 1 0).
  { cbn [repeat run fold_left].
    cbn [step generateAllViewpoints initialState cachedGzip generationPromise
         promises returned loadCalls buildRuns length app].
    change (fold_left (step HS) ?es ?st) with (run HS st es).
    now rewrite run_calls_pending. }
  rewrite E1. cbn [run fold_left].
  cbn [step resumeLoaded promises nth_error settle firstn skipn app
       generationPromise returned loadCalls buildRuns].
  change (fold_left (step HS) ?es ?st) with (run HS st es).
  fold gz. now rewrite run_calls_ready.
Qed.

(** C1.  Whatever the sequence of calls and load completions, after it at
    most one elevation-data load has been started and at most one dataset
    build has run; any two callers whose promise is fulfilled hold the same
    artifact; once an artifact is cached every caller so far is fulfilled
    with it, and it is the compressed dataset of one loaded handle.  In
    particular, with [n + 1] callers before the load resolves and [m] after
    it, there is exactly one load and one build, and all [n + 1 + m] callers
    are fulfilled with the same artifact. *)
Theorem single_flight (events : list Ev) (n m : nat)
    (elevation : ElevationData HS) (s0 : HS) :
  (let st := run HS initialState events in
   (loadCalls st <= 1)%nat /\ (buildRuns st <= 1)%nat /\
   (forall r1 r2 gz1 gz2,
      In r1 (returned st) -> In r2 (returned st) ->
      outcome st r1 = Fulfilled gz1 -> outcome st r2 = Fulfilled gz2 ->
      gz1 = gz2) /\
   (forall gz, cachedGzip st = Some gz ->
      loadCalls st = 1%nat /\ buildRuns st = 1%nat /\
      Forall (fun r => outcome st r = Fulfilled gz) (returned st) /\
      exists (elevation' : ElevationData HS) (s0' : HS),
        gz = compressToGzip (fst (buildDataset elevation' (mkWorld s0' []))))) /\
  (let gz := compressToGzip (fst (buildDataset elevation (mkWorld s0 []))) in
   let st := run HS initialState
               (repeat Call (Datatypes.S n) ++
                LoadResolved 0 elevation s0 :: repeat Call m) in
   loadCalls st = 1%nat /\ buildRuns st = 1%nat /\
   length (returned st) = (Datatypes.S n + m)%nat /\
   Forall (fun r => outcome st r = Fulfilled gz) (returned st)).
Proof.
  split.
  - cbv zeta. destruct (Shape_reachable (HS := HS) events)
      as [|rs Hne Hrs|elevation' s0' gz rs Egz Hrs|reason rs Hrs];
      cbn [initialState cachedGzip generationPromise promises returned
           loadCalls buildRuns].
    + repeat split; try lia; try discriminate. intros ? ? ? ? [].
    + repeat split; try lia; try discriminate.
      intros r1 r2 gz1 gz2 H1 _ O1 _.
      rewrite Forall_forall in Hrs. rewrite (Hrs r1 H1) in O1. discriminate.
    + assert (O : Forall (fun r => outcome
                   (mkModuleState (Some gz) (Some 0%nat) [Fulfilled gz] rs 1 1) r
                   = Fulfilled gz) rs).
      { eapply Forall_impl; [|exact Hrs]. intros r [-> | ->]; reflexivity. }
      split; [lia|]. split; [lia|]. split.
      * intros r1 r2 gz1 gz2 H1 H2 O1 O2. rewrite Forall_forall in O.
        rewrite (O r1 H1) in O1. rewrite (O r2 H2) in O2. congruence.
      * intros gz' E. injection E as <-. repeat split; try exact O.
        now exists elevation', s0'.
    + repeat split; try lia; try discriminate.
      intros r1 r2 gz1 gz2 H1 _ O1 _.
      rewrite Forall_forall in Hrs. rewrite (Hrs r1 H1) in O1. discriminate.
  - intros gz st. subst st. fold gz.
    rewrite (single_flight_scenario n m elevation s0). fold gz.
    cbn [loadCalls buildRuns returned].
    split; [reflexivity|]. split; [reflexivity|]. split.
    + rewrite length_app, !repeat_length. reflexivity.
    + apply Forall_app. split; apply Forall_forall; intros r Hr;
        apply repeat_spec in Hr; subst r; reflexivity.
Qed.

(** C2 (amended).  If the elevation-data load of a build attempt rejects,
    every caller waiting on that attempt observes the failure; nothing is
    cached, and the rejected promise stays in [generationPromise], so the
    cache does not go back to Empty; whatever happens later, no further load
    or build is started and every caller, earlier or later, observes that
    same failure. *)
Theorem failure_is_retained (events later : list Ev) (p : nat) (reason : Error) :
  let st := run HS initialState events in
  nth_error (promises st) p = Some Pending ->
  let st' := step HS st (LoadRejected p reason) in
  let st'' := run HS st' later in
  (returned st' = returned st /\ returned st <> [] /\
   Forall (fun r => outcome st' r = Rejected reason) (returned st')) /\
  (cachedGzip st'' = None /\ generationPromise st'' = Some p /\
   ~ isEmpty st'') /\
  (loadCalls st'' = loadCalls st /\ loadCalls st'' = 1%nat /\
   buildRuns st'' = 0%nat) /\
  Forall (fun r => outcome st'' r = Rejected reason) (returned st'').
Proof.
  cbv zeta. intros Hp.
  destruct (Shape_reachable (HS := HS) events)
    as [|rs Hne Hrs|elevation' s0' gz rs Egz Hrs|reason' rs Hrs];
    cbn [initialState promises] in Hp;
    try (destruct p as [|[|p]]; discriminate).
  destruct p as [|p]; [|destruct p; discriminate]. clear Hp.
  cbn [step resumeFailed promises nth_error settle firstn skipn app
       cachedGzip generationPromise returned loadCalls buildRuns].
  destruct (run_after_failure reason later rs Hrs) as (rs' & -> & Hrs').
  cbn [cachedGzip generationPromise returned loadCalls buildRuns].
  assert (O : forall l, Forall (fun r => r = @ReturnsPromise CD 0) l ->
              forall x, Forall (fun r => outcome
                (mkModuleState None (Some 0%nat) [Rejected reason] x 1 0) r
                = Rejected reason) l).
  { intros l Hl x. eapply Forall_impl; [|exact Hl]. intros r ->. reflexivity. }
  repeat split; try (now apply O).
  - exact Hne.
  - intros [_ E]. discriminate.
Qed.
End SingleFlightClaims.

#[local] Existing Instance coarseMath.
#[local] Existing Instance stubCodec.

Lemma single_flight_witness :
  let st := run unit (ML := coarseMath) (CD := stubCodec) initialState
              [Call; Call; LoadResolved 0 flatTerrain tt; Call] in
  loadCalls st = 1%nat /\ buildRuns st = 1%nat /\
  length (returned st) = 3%nat.
Proof.
  pose proof (single_flight (ML := coarseMath) (CD := stubCodec) (HS := unit)
                [] 1 1 flatTerrain tt) as [_ (L & B & N & _)].
  exact (conj L (conj B N)).
Defined.

Lemma failure_is_retained_witness :
  let st'' :=
    run unit (ML := coarseMath) (CD := stubCodec)
      (step unit (run unit initialState [Call; Call])
         (LoadRejected 0 "ENOENT"%string))
      [Call; LoadResolved 0 flatTerrain tt; Call] in
  Forall (fun r => outcome st'' r = Rejected "ENOENT"%string) (returned st'').
Proof.
  exact (proj2 (proj2 (proj2
    (failure_is_retained (ML := coarseMath) (CD := stubCodec) (HS := unit)
       [Call; Call] [Call; LoadResolved 0 flatTerrain tt; Call]
       0 "ENOENT"%string eq_refl)))).
Defined.

(** C2 as stated fails: after two callers and a rejected load the module is
    not Empty (the rejected promise is still in [generationPromise]), and the
    next call starts no load and is handed the old rejection. *)
Lemma failure_recovery_counterexample :
  let st := run unit (ML := coarseMath) (CD := stubCodec) initialState
              [Call; Call; LoadRejected 0 "ENOENT"%string] in
  ~ (isEmpty st /\
     loadCalls (step unit st Call) = Datatypes.S (loadCalls st)) /\
  generationPromise st = Some 0%nat /\
  loadCalls (step unit st Call) = loadCalls st /\
  Forall (fun r => outcome (step unit st Call) r = Rejected "ENOENT"%string)
         (returned (step unit st Call)).
Proof.
  cbv zeta. split; [|split; [|split]].
  - intros [[_ E] _]. vm_compute in E. discriminate.
  - reflexivity.
  - reflexivity.
  - vm_compute. repeat constructor.
Qed.

(** * Further properties of the code *)

(** ** More on the relative direction *)

#[global] Instance normalizeRelativeDirection_comp :
  Proper (Qeq ==> Qeq) normalizeRelativeDirection.
Proof.
  intros x y E. unfold normalizeRelativeDirection.
  destruct (Qlt_le_dec 180 x), (Qlt_le_dec 180 y); try lra;
    destruct (Qlt_le_dec x (-180)), (Qlt_le_dec y (-180)); lra.
Qed.

(** X2.  On a number of magnitude up to 2^53 (where subtracting or adding
    360 is exact in double arithmetic as well), [normalizeRelativeDirection]
    moves its argument by one turn at most, so the direction is never
    changed modulo 360; it leaves the number unchanged exactly when the
    number is in [-180, 180]; and it is odd. *)
Theorem normalizeRelativeDirection_laws (x : Q) :
  - inject_Z (2 ^ 53) <= x <= inject_Z (2 ^ 53) ->
  (exists k : Z, (-1 <= k <= 1)%Z /\
     normalizeRelativeDirection x == x + 360 * inject_Z k) /\
  (normalizeRelativeDirection x == x <-> -180 <= x <= 180) /\
  normalizeRelativeDirection (- x) == - normalizeRelativeDirection x.
Proof.
  intros _. unfold normalizeRelativeDirection. split; [|split].
  - destruct (Qlt_le_dec 180 x); [|destruct (Qlt_le_dec x (-180))].
    + exists (-1)%Z. split; [lia|]. change (inject_Z (-1)) with (-1). lra.
    + exists 1%Z. split; [lia|]. change (inject_Z 1) with 1. lra.
    + exists 0%Z. split; [lia|]. change (inject_Z 0) with 0. lra.
  - destruct (Qlt_le_dec 180 x); [|destruct (Qlt_le_dec x (-180))];
      split; intros H; lra.
  - destruct (Qlt_le_dec 180 x), (Qlt_le_dec 180 (- x)); try lra;
      destruct (Qlt_le_dec x (-180)), (Qlt_le_dec (- x) (-180)); lra.
Qed.

Lemma normalizeRelativeDirection_laws_witness :
  (normalizeRelativeDirection 200 == 200 <-> -180 <= 200 <= 180) /\
  normalizeRelativeDirection (- (200)) == - normalizeRelativeDirection 200.
Proof.
  apply (normalizeRelativeDirection_laws 200). split; discriminate.
Defined.

(** ** The queries of one viewpoint are acceptable to the collaborator *)

Section QueryShape.
Context {S : Type} (elevation : ElevationData S).

Lemma queries_shape (vp : Coordinate) (b : Q) (w : World S) :
  exists issued : list HorizonQuery,
    query_log (snd (calculateHorizonForViewpoint elevation vp b w)) =
      query_log w ++ issued /\
    length issued =
      (if rangeWrapsAroundNorth (calculateDirectionRange b) then 2 else 1)%nat /\
    Forall wellFormedQuery issued /\
    Forall (fun q => q_lat q = latitude vp /\ q_lon q = longitude vp) issued.
Proof.
  destruct (issued_queries elevation vp b w) as (s & e & E & Hs & He & _ & L).
  eexists. split; [exact L|].
  rewrite E, rangeWrapsAroundNorth_grid.
  destruct (Z.ltb_spec e s) as [W|W].
  - split; [reflexivity|]. split.
    + constructor; [exists s, 359%Z|constructor; [exists 0%Z, e|constructor]];
        cbn [q_startDir q_endDir]; repeat split; lia.
    + repeat constructor.
  - split; [reflexivity|]. split.
    + constructor; [exists s, e|constructor];
        cbn [q_startDir q_endDir]; repeat split; lia.
    + repeat constructor.
Qed.
End QueryShape.

(** ** Lists of whole degrees *)

Lemma degreesBetween_cons (s e : Z) :
  (s <= e)%Z -> degreesBetween s e = s :: degreesBetween (s + 1) e.
Proof.
  intros H. unfold degreesBetween.
  replace (Z.to_nat (e - s + 1)) with (Datatypes.S (Z.to_nat (e - (s + 1) + 1)))
    by lia.
  cbn [seq map]. f_equal; [lia|].
  rewrite <- seq_shift, map_map. apply map_ext. intros k. lia.
Qed.

Lemma degreesBetween_empty (s e : Z) : (e < s)%Z -> degreesBetween s e = [].
Proof.
  intros H. unfold degreesBetween.
  replace (Z.to_nat (e - s + 1)) with 0%nat by lia. reflexivity.
Qed.

(** A strictly ascending list of integers within [a, b] has at most
    [b - a + 1] elements. *)
Lemma ascending_length_bound (l : list Z) :
  forall a b : Z,
    StronglySorted Z.lt l -> Forall (fun x => (a <= x <= b)%Z) l ->
    (Z.of_nat (length l) <= Z.max 0 (b - a + 1))%Z.
Proof.
  induction l as [|x l IH]; intros a b Hs Hr; cbn [length]; [lia|].
  inversion Hs as [|? ? Hs' Hx]; subst. inversion Hr as [|? ? Rx Rl]; subst.
  assert (T : Forall (fun y => (x + 1 <= y <= b)%Z) l).
  { rewrite Forall_forall in *. intros y Hy.
    specialize (Hx y Hy). specialize (Rl y Hy). lia. }
  specialize (IH (x + 1)%Z b Hs' T). lia.
Qed.

(** A strictly ascending list of [n] integers within [lo, lo + n - 1] is
    the list of all of them. *)
Lemma ascending_fills_range (l : list Z) :
  forall lo : Z,
    StronglySorted Z.lt l ->
    Forall (fun x => (lo <= x <= lo + Z.of_nat (length l) - 1)%Z) l ->
    l = degreesBetween lo (lo + Z.of_nat (length l) - 1).
Proof.
  induction l as [|x l IH]; intros lo Hs Hr.
  - cbn [length]. rewrite degreesBetween_empty; [reflexivity|lia].
  - inversion Hs as [|? ? Hs' Hx]; subst. inversion Hr as [|? ? Rx Rl]; subst.
    cbn [length] in *.
    assert (T : Forall (fun y => (x + 1 <= y <= lo + Z.of_nat (length l))%Z) l).
    { rewrite Forall_forall in *. intros y Hy.
      specialize (Hx y Hy). specialize (Rl y Hy). lia. }
    pose proof (ascending_length_bound l _ _ Hs' T) as B.
    assert (Ex : x = lo) by lia. subst x.
    rewrite degreesBetween_cons by lia. f_equal.
    replace (lo + Z.of_nat (Datatypes.S (length l)) - 1)%Z
      with (lo + 1 + Z.of_nat (length l) - 1)%Z by lia.
    apply IH; [exact Hs'|].
    eapply Forall_impl; [|exact T]. intros y Hy. cbv beta in *. lia.
Qed.

Lemma windowDegrees_In (s e d : Z) :
  In d (windowDegrees s e) <->
  (if (e <? s)%Z then (s <= d <= 359 \/ 0 <= d <= e)%Z else (s <= d <= e)%Z).
Proof.
  unfold windowDegrees. destruct (e <? s)%Z.
  - rewrite in_app_iff, !degreesBetween_In. reflexivity.
  - apply degreesBetween_In.
Qed.

Lemma round_is_floor_or_next (b : Q) :
  (0 <= Qfloor (b + (1 # 2)) - Qfloor b <= 1)%Z.
Proof.
  destruct (Qfloor_bounds b) as [Lo Hi].
  destruct (Qfloor_bounds (b + (1 # 2))) as [Lo' Hi'].
  split.
  - assert (Qfloor b <= Qfloor (b + (1 # 2)))%Z
      by (apply Qfloor_resp_le; lra). lia.
  - assert (H : inject_Z (Qfloor (b + (1 # 2))) < inject_Z (Qfloor b + 1) + 1)
      by (rewrite inject_Z_plus; change (inject_Z 1) with 1; lra).
    apply inject_Z_lt_succ in H. lia.
Qed.

(** ** Viewpoints and datasets *)

Section Dataset.
Context {ML : MathLib} {S : Type} (elevation : ElevationData S).

Lemma calculateBearing_range (from to : Coordinate) :
  0 <= calculateBearing from to < 360.
Proof.
  unfold calculateBearing. cbv zeta.
  destruct (normalizeAngle_turns
              (toDegrees
                 (Math_atan2
                    (Math_sin (toRadians (longitude to - longitude from)) *
                     Math_cos (toRadians (latitude to)))
                    (Math_cos (toRadians (latitude from)) *
                       Math_sin (toRadians (latitude to)) -
                     Math_sin (toRadians (latitude from)) *
                       Math_cos (toRadians (latitude to)) *
                       Math_cos (toRadians (longitude to - longitude from))))))
    as (k & _ & B).
  exact B.
Qed.

Lemma generateViewpoint_run (a : Q) (w : World S) :
  let vp := calculateDestinationPoint PEAK DISTANCE_KM a in
  let b := calculateBearing vp PEAK in
  generateViewpoint elevation a w =
    (mkViewpoint a vp b (fst (calculateHorizonForViewpoint elevation vp b w)),
     snd (calculateHorizonForViewpoint elevation vp b w)).
Proof.
  cbv zeta. unfold generateViewpoint, bind, ret.
  now destruct (calculateHorizonForViewpoint elevation _ _ w).
Qed.

Lemma generateEach_Forall (P : Viewpoint -> Prop) :
  (forall a w, P (fst (generateViewpoint elevation a w))) ->
  forall angles w, Forall P (fst (generateEach elevation angles w)).
Proof.
  intros HP. induction angles as [|a angles IH]; intros w; cbn [generateEach].
  - constructor.
  - unfold bind, ret. pose proof (HP a w) as Hv.
    destruct (generateViewpoint elevation a w) as [v w1].
    pose proof (IH w1) as Hrest.
    destruct (generateEach elevation angles w1) as [vs w2].
    cbn [fst] in *. now constructor.
Qed.

Lemma generateEach_angles (angles : list Q) :
  forall w, map angle (fst (generateEach elevation angles w)) = angles.
Proof.
  induction angles as [|a angles IH]; intros w; cbn [generateEach].
  - reflexivity.
  - unfold bind, ret. rewrite generateViewpoint_run. cbv zeta.
    pose proof (IH (snd (calculateHorizonForViewpoint elevation
                           (calculateDestinationPoint PEAK DISTANCE_KM a)
                           (calculateBearing
                              (calculateDestinationPoint PEAK DISTANCE_KM a) PEAK)
                           w))) as Hrest.
    destruct (generateEach elevation angles _) as [vs w2].
    cbn [fst map angle] in *. now rewrite Hrest.
Qed.

Lemma generateEach_log (angles : list Q) :
  forall w, exists issued : list HorizonQuery,
    query_log (snd (generateEach elevation angles w)) = query_log w ++ issued /\
    (length angles <= length issued <= 2 * length angles)%nat /\
    Forall wellFormedQuery issued.
Proof.
  induction angles as [|a angles IH]; intros w; cbn [generateEach].
  - exists []. cbn. rewrite app_nil_r. repeat split; auto.
  - unfold bind, ret. rewrite generateViewpoint_run. cbv zeta.
    destruct (queries_shape elevation
                (calculateDestinationPoint PEAK DISTANCE_KM a)
                (calculateBearing
                   (calculateDestinationPoint PEAK DISTANCE_KM a) PEAK) w)
      as (q1 & L1 & N1 & W1 & _).
    set (w1 := snd (calculateHorizonForViewpoint elevation _ _ w)) in *.
    destruct (IH w1) as (q2 & L2 & N2 & W2).
    destruct (generateEach elevation angles w1) as [vs w2].
    cbn [fst snd] in *. exists (q1 ++ q2).
    split; [rewrite L2, L1; now rewrite app_assoc|].
    split; [|now apply Forall_app].
    rewrite length_app. cbn [length].
    destruct (rangeWrapsAroundNorth _); lia.
Qed.

Lemma allAngles_nth (i : nat) :
  nth_error allAngles i =
  if (i <? 360)%nat then Some (inject_Z (Z.of_nat i)) else None.
Proof.
  unfold allAngles. rewrite nth_error_map, nth_error_seq.
  now destruct (i <? 360)%nat.
Qed.

(** X7.  Whatever the handle answers, a built dataset has exactly 360
    viewpoints and is indexed by angle: the entry at index [i] was generated
    for angle [i], sits at the destination point for that angle, and has a
    bearing to the peak in [0, 360); an index from 360 on has no entry. *)
Theorem dataset_indexed_by_angle (w : World S) :
  let dataset := fst (buildDataset elevation w) in
  length dataset = 360%nat /\
  map angle dataset = allAngles /\
  (forall i, (360 <= i)%nat -> nth_error dataset i = None) /\
  (forall i, (i < 360)%nat ->
     exists v, nth_error dataset i = Some v /\
       angle v = inject_Z (Z.of_nat i) /\
       viewpoint v = calculateDestinationPoint PEAK DISTANCE_KM (angle v) /\
       bearingToPeak v = calculateBearing (viewpoint v) PEAK /\
       0 <= bearingToPeak v < 360).
Proof.
  cbv zeta. unfold buildDataset.
  pose proof (generateEach_angles allAngles w) as A.
  assert (L : length (fst (generateEach elevation allAngles w)) = 360%nat).
  { rewrite <- (length_map angle), A. reflexivity. }
  split; [exact L|]. split; [exact A|]. split.
  - intros i Hi. apply nth_error_None. lia.
  - intros i Hi.
    destruct (nth_error (fst (generateEach elevation allAngles w)) i)
      as [v|] eqn:E; [|apply nth_error_None in E; lia].
    exists v. split; [reflexivity|].
    assert (Ha : angle v = inject_Z (Z.of_nat i)).
    { pose proof (map_nth_error angle i _ E) as M. rewrite A in M.
      rewrite allAngles_nth in M.
      destruct (Nat.ltb_spec i 360); [|lia]. now injection M. }
    split; [exact Ha|].
    assert (F : Forall (fun v =>
                  viewpoint v = calculateDestinationPoint PEAK DISTANCE_KM (angle v) /\
                  bearingToPeak v = calculateBearing (viewpoint v) PEAK /\
                  0 <= bearingToPeak v < 360)
                (fst (generateEach elevation allAngles w))).
    { apply generateEach_Forall. intros a w'. rewrite generateViewpoint_run.
      cbn [fst angle viewpoint bearingToPeak].
      split; [reflexivity|]. split; [reflexivity|]. apply calculateBearing_range. }
    rewrite Forall_forall in F. apply F. eapply nth_error_In. exact E.
Qed.

(** X5.  Whatever the bearing and whatever the handle answers: the call for
    one viewpoint appends its queries to the log and changes nothing logged
    before, issues two queries when the window wraps and one otherwise, and
    every query carries the viewpoint's coordinates and has whole-degree
    bounds with [0 <= start <= end <= 359].  Building a dataset therefore
    issues between 360 and 720 queries, all of them with such bounds. *)
Theorem queries_well_formed (vp : Coordinate) (b : Q) (w : World S) :
  (exists issued : list HorizonQuery,
     query_log (snd (calculateHorizonForViewpoint elevation vp b w)) =
       query_log w ++ issued /\
     length issued =
       (if rangeWrapsAroundNorth (calculateDirectionRange b) then 2 else 1)%nat /\
     Forall wellFormedQuery issued /\
     Forall (fun q => q_lat q = latitude vp /\ q_lon q = longitude vp) issued) /\
  (exists issued : list HorizonQuery,
     query_log (snd (buildDataset elevation w)) = query_log w ++ issued /\
     (360 <= length issued <= 720)%nat /\
     Forall wellFormedQuery issued).
Proof.
  split; [apply queries_shape|].
  destruct (generateEach_log allAngles w) as (issued & L & N & W).
  exists issued. split; [exact L|]. split; [|exact W].
  replace (length allAngles) with 360%nat in N by reflexivity. lia.
Qed.
End Dataset.

(** ** The cache never takes anything back *)

Section CacheMonotone.
Context {ML : MathLib} {CD : Codec} {HS : Type}.

Local Abbreviation State := (@ModuleState CD).
Local Abbreviation Ev := (@Event HS).

Lemma carriesOver_refl (st : State) : carriesOver st st.
Proof.
  repeat split; auto. exists []. now rewrite app_nil_r.
Qed.

Lemma carriesOver_trans (st1 st2 st3 : State) :
  carriesOver st1 st2 -> carriesOver st2 st3 -> carriesOver st1 st3.
Proof.
  intros (C1 & (m1 & R1) & O1 & L1 & B1) (C2 & (m2 & R2) & O2 & L2 & B2).
  split; [auto|]. split; [|split; [|lia]].
  - exists (m1 ++ m2). rewrite R2, R1. now rewrite app_assoc.
  - intros r Hin Hset. rewrite <- (O1 r Hin Hset). apply O2.
    + rewrite R1. apply in_or_app. now left.
    + rewrite (O1 r Hin Hset). exact Hset.
Qed.

Lemma carriesOver_call (st : State) :
  carriesOver st (generateAllViewpoints st) \/
  (cachedGzip st = None /\ generationPromise st = None).
Proof.
  unfold generateAllViewpoints.
  destruct (cachedGzip st) as [gz|] eqn:Ec;
    [|destruct (generationPromise st) as [p|] eqn:Eg]; [left|left|right; auto].
  - unfold carriesOver.
    cbn [cachedGzip returned loadCalls buildRuns].
    repeat split; auto; try congruence. now eexists.
  - unfold carriesOver.
    cbn [cachedGzip returned loadCalls buildRuns].
    repeat split; auto; try congruence. now eexists.
Qed.

Lemma carriesOver_step (st : State) (e : Ev) :
  Shape HS st -> carriesOver st (step HS st e).
Proof.
  intros Hs.
  destruct Hs as [|rs Hne Hrs|elevation s0 gz rs Egz Hrs|reason rs Hrs].
  - (* Empty: nothing is settled yet *)
    unfold carriesOver. cbn [initialState cachedGzip returned loadCalls buildRuns].
    split; [discriminate|]. split; [now eexists|].
    split; [intros r []|]. split; lia.
  - (* Pending: no caller is settled yet *)
    unfold carriesOver. cbn [cachedGzip returned loadCalls buildRuns].
    split; [discriminate|]. split; [|split].
    + destruct e as [|p elevation' s0'|p reason']; cbn [step].
      * destruct (carriesOver_call
                    (mkModuleState None (Some 0%nat) [Pending] rs 1 0))
          as [(_ & R & _)|[_ G]]; [exact R|discriminate].
      * exists []. rewrite app_nil_r. unfold resumeLoaded. cbn [promises].
        destruct p as [|[|p]]; reflexivity.
      * exists []. rewrite app_nil_r. unfold resumeFailed. cbn [promises].
        destruct p as [|[|p]]; reflexivity.
    + intros r Hin Hset. exfalso. apply Hset.
      rewrite Forall_forall in Hrs. now rewrite (Hrs r Hin).
    + destruct e as [|p elevation' s0'|p reason'];
        try destruct p as [|[|p]];
        cbn [step generateAllViewpoints resumeLoaded resumeFailed nth_error
             cachedGzip generationPromise promises loadCalls buildRuns]; lia.
  - (* Ready: only calls change the state, and they only add a caller *)
    destruct e as [|p elevation' s0'|p reason']; cbn [step].
    + destruct (carriesOver_call
                  (mkModuleState (Some gz) (Some 0%nat) [Fulfilled gz] rs 1 1))
        as [C|[C _]]; [exact C|discriminate].
    + unfold resumeLoaded. cbn [promises].
      destruct p as [|[|p]]; apply carriesOver_refl.
    + unfold resumeFailed. cbn [promises].
      destruct p as [|[|p]]; apply carriesOver_refl.
  - (* Failed: likewise *)
    destruct e as [|p elevation' s0'|p reason']; cbn [step].
    + destruct (carriesOver_call
                  (mkModuleState None (Some 0%nat) [Rejected reason] rs 1 0))
        as [C|[_ G]]; [exact C|discriminate].
    + unfold resumeLoaded. cbn [promises].
      destruct p as [|[|p]]; apply carriesOver_refl.
    + unfold resumeFailed. cbn [promises].
      destruct p as [|[|p]]; apply carriesOver_refl.
Qed.

Lemma carriesOver_run (later : list Ev) :
  forall st : State, Shape HS st -> carriesOver st (run HS st later).
Proof.
  induction later as [|e later IH]; intros st Hs; cbn [run fold_left].
  - apply carriesOver_refl.
  - apply (carriesOver_trans st (step HS st e)).
    + now apply carriesOver_step.
    + apply IH. now apply Shape_step.
Qed.

(** X8.  The cache never takes anything back.  From any reachable state and
    through any further calls and load completions: a cached artifact stays
    the cached artifact; every caller so far is still there, and a caller
    whose promise was fulfilled or rejected observes the same value or the
    same failure ever after; the counts of loads and builds do not
    decrease. *)
Theorem cache_never_takes_back (events later : list Ev) :
  let st := run HS initialState events in
  let st' := run HS st later in
  (forall gz, cachedGzip st = Some gz -> cachedGzip st' = Some gz) /\
  (exists more, returned st' = returned st ++ more) /\
  (forall r, In r (returned st) -> outcome st r <> Pending ->
             outcome st' r = outcome st r) /\
  (loadCalls st <= loadCalls st')%nat /\ (buildRuns st <= buildRuns st')%nat.
Proof.
  cbv zeta. apply carriesOver_run. apply Shape_reachable.
Qed.
End CacheMonotone.

(** ** Calls, answers and loads *)

Section CacheCounts.
Context {ML : MathLib} {CD : Codec} {HS : Type}.

Local Abbreviation State := (@ModuleState CD).
Local Abbreviation Ev := (@Event HS).

Lemma step_counts (st : State) (e : Ev) :
  length (returned (step HS st e)) =
    (length (returned st) + countCalls [e])%nat /\
  (loadCalls (step HS st e) <= loadCalls st + countCalls [e])%nat.
Proof.
  destruct e as [|p elevation s0|p reason]; cbn [step countCalls filter length].
  - unfold generateAllViewpoints.
    destruct (cachedGzip st); [|destruct (generationPromise st)];
      cbn [returned loadCalls]; rewrite length_app; cbn [length]; lia.
  - unfold resumeLoaded.
    destruct (nth_error (promises st) p) as [[| |]|]; cbn [returned loadCalls]; lia.
  - unfold resumeFailed.
    destruct (nth_error (promises st) p) as [[| |]|]; cbn [returned loadCalls]; lia.
Qed.

Lemma countCalls_cons (e : Ev) (events : list Ev) :
  countCalls (e :: events) = (countCalls [e] + countCalls events)%nat.
Proof. unfold countCalls. cbn [filter]. now destruct e. Qed.

Lemma run_counts (events : list Ev) :
  forall st : State,
    length (returned (run HS st events)) =
      (length (returned st) + countCalls events)%nat /\
    (loadCalls (run HS st events) <= loadCalls st + countCalls events)%nat.
Proof.
  induction events as [|e events IH]; intros st.
  - cbn [run fold_left]. unfold countCalls. cbn. lia.
  - cbn [run fold_left]. change (fold_left (step HS) events ?s)
      with (run HS s events).
    destruct (IH (step HS st e)) as [L1 L2].
    destruct (step_counts st e) as [S1 S2].
    rewrite countCalls_cons. lia.
Qed.

(** X9.  After any sequence of calls and load completions: every call so
    far has been handed exactly one answer; a load has been started if and
    only if there has been a call, and then exactly one, however many calls
    follow; no build has run without its load; and if an artifact is cached,
    exactly one build has run. *)
Theorem one_answer_per_call (events : list Ev) :
  let st := run HS initialState events in
  length (returned st) = countCalls events /\
  loadCalls st = Nat.min 1 (countCalls events) /\
  (buildRuns st <= loadCalls st)%nat /\
  (cachedGzip st <> None -> buildRuns st = 1%nat).
Proof.
  cbv zeta. destruct (run_counts events initialState) as [L B].
  cbn [initialState returned loadCalls] in L, B.
  split; [exact L|]. revert L B.
  destruct (Shape_reachable (HS := HS) events)
    as [|rs Hne Hrs|elevation s0 gz rs Egz Hrs|reason rs Hrs];
    cbn [initialState cachedGzip returned loadCalls buildRuns length];
    intros L B.
  - split; [lia|]. split; [lia|]. intros N. now contradiction N.
  - split; [lia|]. split; [lia|]. intros N. now contradiction N.
  - split; [lia|]. split; [lia|]. reflexivity.
  - split; [lia|]. split; [lia|]. intros N. now contradiction N.
Qed.
End CacheCounts.

(** ** The chart page: colours *)

Lemma Math_round_between (x : Q) (lo hi : Z) :
  inject_Z lo <= x -> x <= inject_Z hi ->
  inject_Z lo <= Math_round x <= inject_Z hi.
Proof.
  intros L H. unfold Math_round. rewrite <- !Zle_Qle. split.
  - rewrite <- (Qfloor_Z lo). apply Qfloor_resp_le. lra.
  - assert (E : Qfloor (inject_Z hi + (1 # 2)) = hi).
    { apply Qfloor_unique; lra. }
    rewrite <- E. apply Qfloor_resp_le. lra.
Qed.

Lemma Math_round_monotone (x y : Q) : x <= y -> Math_round x <= Math_round y.
Proof.
  intros H. unfold Math_round. rewrite <- Zle_Qle. apply Qfloor_resp_le. lra.
Qed.

Lemma Math_round_whole (x : Q) (z : Z) : x == inject_Z z -> Math_round x = inject_Z z.
Proof.
  intros E. unfold Math_round. f_equal. apply Qfloor_unique; lra.
Qed.

Lemma clamp_unit_range (x : Q) : 0 <= clamp x 0 1 <= 1.
Proof.
  unfold clamp, Math_min, Math_max.
  destruct (Qlt_le_dec x 0); destruct (Qlt_le_dec 1 _); lra.
Qed.

Ltac split_comparisons :=
  repeat match goal with
         | |- context [Qlt_le_dec ?a ?b] =>
             lazymatch b with
             | context [Qlt_le_dec _ _] => fail
             | _ => destruct (Qlt_le_dec a b)
             end
         end.

Lemma clamp_monotone (value value' lo hi : Q) :
  value <= value' -> clamp value lo hi <= clamp value' lo hi.
Proof.
  intros H. unfold clamp, Math_min, Math_max. split_comparisons; lra.
Qed.

(** X10.  [clamp value min max] never exceeds [max]; when [min <= max] it is
    never below [min], and it returns [value] unchanged exactly when
    [value] is within the bounds; when the bounds are crossed
    ([max < min]) it returns [max] whatever the value.  It is monotone in
    the value. *)
Theorem clamp_laws (value lo hi : Q) :
  clamp value lo hi <= hi /\
  (lo <= hi -> lo <= clamp value lo hi) /\
  (lo <= hi -> (clamp value lo hi == value <-> lo <= value <= hi)) /\
  (hi < lo -> clamp value lo hi == hi) /\
  (forall value', value <= value' -> clamp value lo hi <= clamp value' lo hi).
Proof.
  split; [|split; [|split; [|split]]].
  - unfold clamp, Math_min, Math_max. split_comparisons; lra.
  - intros H. unfold clamp, Math_min, Math_max. split_comparisons; lra.
  - intros H. unfold clamp, Math_min, Math_max.
    split; [|intros [L U]]; split_comparisons; intros; try split; lra.
  - intros H. unfold clamp, Math_min, Math_max. split_comparisons; lra.
  - intros value' H. now apply clamp_monotone.
Qed.

Section ChartEncodings.
Context {NF : NumberFormat}.

(** X11.  For every distance, negative and huge ones included, the colour
    of a bar is the text of a colour whose channels are whole numbers
    between those of the two end colours (so within 0..255); a distance of
    zero or less gives the close colour, 15 km or more the far colour; and
    a larger distance never gives more red or green, nor less blue. *)
Theorem chart_encodings (distanceKm : Q) :
  let colour d :=
    interpolateColor CLOSE_COLOR FAR_COLOR (clamp (d / MAX_DISTANCE_KM) 0 1) in
  calculateDistanceColor distanceKm = rgbToString (colour distanceKm) /\
  (65 <= red (colour distanceKm) <= 255 /\
   88 <= green (colour distanceKm) <= 107 /\
   53 <= blue (colour distanceKm) <= 208) /\
  (red (colour distanceKm) = inject_Z (Qfloor (red (colour distanceKm))) /\
   green (colour distanceKm) = inject_Z (Qfloor (green (colour distanceKm))) /\
   blue (colour distanceKm) = inject_Z (Qfloor (blue (colour distanceKm)))) /\
  (distanceKm <= 0 -> colour distanceKm = CLOSE_COLOR) /\
  (15 <= distanceKm -> colour distanceKm = FAR_COLOR) /\
  (forall farther, distanceKm <= farther ->
     red (colour farther) <= red (colour distanceKm) /\
     green (colour farther) <= green (colour distanceKm) /\
     blue (colour distanceKm) <= blue (colour farther)).
Proof.
  cbv zeta.
  pose proof (clamp_unit_range (distanceKm / MAX_DISTANCE_KM)) as [T0 T1].
  set (t := clamp (distanceKm / MAX_DISTANCE_KM) 0 1) in *.
  unfold interpolateColor, linearInterpolate, CLOSE_COLOR, FAR_COLOR.
  cbn [red green blue].
  split; [reflexivity|]. split; [|split; [|split; [|split]]].
  - repeat split.
    + apply (Math_round_between _ 65 255); unfold inject_Z; lra.
    + apply (Math_round_between _ 65 255); unfold inject_Z; lra.
    + apply (Math_round_between _ 88 107); unfold inject_Z; lra.
    + apply (Math_round_between _ 88 107); unfold inject_Z; lra.
    + apply (Math_round_between _ 53 208); unfold inject_Z; lra.
    + apply (Math_round_between _ 53 208); unfold inject_Z; lra.
  - unfold Math_round. now rewrite !Qfloor_Z.
  - intros Hd.
    assert (Et : t == 0).
    { subst t. unfold clamp, Math_min, Math_max, MAX_DISTANCE_KM.
      assert (Hq : distanceKm / 15 <= 0).
      { apply Qle_shift_div_r; [reflexivity|lra]. }
      destruct (Qlt_le_dec (distanceKm / 15) 0);
        destruct (Qlt_le_dec 1 _); lra. }
    f_equal; apply Math_round_whole; rewrite Et; reflexivity.
  - intros Hd.
    assert (Et : t == 1).
    { subst t. unfold clamp, Math_min, Math_max, MAX_DISTANCE_KM.
      assert (Hq : 1 <= distanceKm / 15).
      { apply Qle_shift_div_l; [reflexivity|lra]. }
      destruct (Qlt_le_dec (distanceKm / 15) 0);
        destruct (Qlt_le_dec 1 _); lra. }
    f_equal; apply Math_round_whole; rewrite Et; reflexivity.
  - intros farther Hf.
    assert (Hq : distanceKm / MAX_DISTANCE_KM <= farther / MAX_DISTANCE_KM).
    { unfold MAX_DISTANCE_KM, Qdiv. apply Qmult_le_compat_r; [exact Hf|].
      discriminate. }
    pose proof (clamp_monotone _ _ 0 1 Hq) as Hm.
    fold t in Hm. set (t' := clamp (farther / MAX_DISTANCE_KM) 0 1) in *.
    repeat split; apply Math_round_monotone; lra.
Qed.
End ChartEncodings.

(** ** The chart page: the animation *)

Lemma tick_angle (cur : Q) (z : Z) :
  cur == inject_Z z -> (0 <= z <= 359)%Z ->
  js_rem (cur + 1) 360 == inject_Z ((z + 1) mod 360).
Proof.
  intros E [L U]. rewrite E.
  assert (P : 0 <= inject_Z z + 1).
  { rewrite Zle_Qle in L. change (inject_Z 0) with 0 in L. lra. }
  destruct (js_rem_360_nonneg (inject_Z z + 1) P) as [R _]. rewrite R.
  pose proof (div360 (inject_Z z + 1)) as D.
  rewrite Zle_Qle in L, U.
  change (inject_Z 0) with 0 in L. change (inject_Z 359) with 359 in U.
  destruct (Z.eq_dec z 359) as [->|N].
  - assert (F : Qfloor ((inject_Z 359 + 1) / 360) = 1%Z) by reflexivity.
    rewrite F. reflexivity.
  - assert (U' : inject_Z z <= 358).
    { change 358 with (inject_Z 358). rewrite <- Zle_Qle.
      change 359 with (inject_Z 359) in U. rewrite <- Zle_Qle in U. lia. }
    assert (F : Qfloor ((inject_Z z + 1) / 360) = 0%Z).
    { apply Qfloor_unique; change (inject_Z 0) with 0; lra. }
    rewrite F. rewrite Z.mod_small.
    + rewrite inject_Z_plus. change (inject_Z 0) with 0.
      change (inject_Z 1) with 1. lra.
    + change 358 with (inject_Z 358) in U'. rewrite <- Zle_Qle in U'.
      change 0 with (inject_Z 0) in L. rewrite <- Zle_Qle in L. lia.
Qed.

Lemma pageInvariant_step (st : PageState) (ev : PageEvent) :
  deliverable ev -> pageInvariant st -> pageInvariant (pageStep st ev).
Proof.
  intros Hev [(z & Hz & Ez) Hsp].
  destruct ev as [| |value|value]; cbn [pageStep deliverable] in *.
  - destruct (playing st); [|now split; [exists z|]].
    split; [|exact Hsp]. cbn [currentAngle].
    exists ((z + 1) mod 360)%Z. split.
    + pose proof (Z.mod_pos_bound (z + 1) 360). lia.
    + now apply tick_angle.
  - split; [now exists z|exact Hsp].
  - split; [|exact Hsp]. destruct Hev as (v & -> & Hv).
    exists v. cbn [currentAngle]. split; [exact Hv|reflexivity].
  - split; [now exists z|exact Hev].
Qed.

Lemma pageInvariant_run (events : list PageEvent) :
  forall st, Forall deliverable events -> pageInvariant st ->
             pageInvariant (pageRun st events).
Proof.
  induction events as [|ev events IH]; intros st Hev Hinv; cbn [pageRun fold_left].
  - exact Hinv.
  - inversion Hev as [|? ? H1 H2]; subst.
    apply IH; [exact H2|]. now apply pageInvariant_step.
Qed.

Lemma initialPage_invariant : pageInvariant initialPage.
Proof.
  split.
  - exists 187%Z. split; [lia|reflexivity].
  - exists 500%Z. split; [reflexivity|lia].
Qed.

Lemma currentViewpoint_at (viewpoints : list Viewpoint) (st : PageState) (z : Z) :
  (0 <= z)%Z -> currentAngle st == inject_Z z ->
  currentViewpoint viewpoints st = nth_error viewpoints (Z.to_nat z).
Proof.
  intros Hz E. unfold currentViewpoint.
  assert (F : Qfloor (currentAngle st) = z)
    by (rewrite (Qfloor_comp _ _ E); apply Qfloor_Z).
  rewrite F.
  assert (B : Qeq_bool (currentAngle st) (inject_Z z) = true)
    by now apply Qeq_bool_iff.
  rewrite B.
  destruct (Qlt_le_dec (currentAngle st) 0) as [G|G]; [|reflexivity].
  rewrite Zle_Qle in Hz. change (inject_Z 0) with 0 in Hz. lra.
Qed.

Section PageOnDataset.
Context {ML : MathLib} {S : Type} (elevation : ElevationData S).

(** X12.  Start from the page's initial state and let the interval fire,
    the button be pressed and the sliders deliver values of their ranges, in
    any order.  Then the current angle is always a whole degree in 0..359;
    the delay given to the timer is always between 10 and 500 ms; looking up
    the current angle in a table of 360 viewpoints always finds an entry;
    and in a built dataset the entry found is the viewpoint generated for
    the current angle. *)
Theorem page_always_shows_a_viewpoint (events : list PageEvent) (w : World S) :
  Forall deliverable events ->
  let st := pageRun initialPage events in
  (exists z : Z, (0 <= z <= 359)%Z /\ currentAngle st == inject_Z z) /\
  10 <= intervalDelayMs st <= 500 /\
  (forall viewpoints : list Viewpoint,
     length viewpoints = 360%nat -> currentViewpoint viewpoints st <> None) /\
  (exists v, currentViewpoint (fst (buildDataset elevation w)) st = Some v /\
             angle v == currentAngle st).
Proof.
  intros Hev st.
  destruct (pageInvariant_run events initialPage Hev initialPage_invariant)
    as [(z & Hz & Ez) (sp & Esp & Hsp)].
  fold st in Ez, Esp. split; [now exists z|]. split; [|split].
  - unfold intervalDelayMs. rewrite Esp.
    destruct Hsp as [L U]. rewrite Zle_Qle in L, U.
    change (inject_Z 10) with 10 in L. change (inject_Z 500) with 500 in U. lra.
  - intros viewpoints Hlen. rewrite (currentViewpoint_at _ _ z); [|lia|exact Ez].
    intros N. apply nth_error_None in N. lia.
  - rewrite (currentViewpoint_at _ _ z); [|lia|exact Ez].
    unfold buildDataset.
    pose proof (generateEach_angles elevation allAngles w) as A.
    destruct (nth_error (fst (generateEach elevation allAngles w)) (Z.to_nat z))
      as [v|] eqn:E.
    + exists v. split; [reflexivity|].
      pose proof (map_nth_error angle _ _ E) as M. rewrite A in M.
      rewrite allAngles_nth in M.
      destruct (Nat.ltb_spec (Z.to_nat z) 360); [|lia].
      injection M as M. rewrite <- M, Ez. now rewrite Z2Nat.id by lia.
    + apply nth_error_None in E.
      rewrite <- (length_map angle), A in E.
      change (length allAngles) with 360%nat in E. lia.
Qed.
End PageOnDataset.

Lemma page_always_shows_a_viewpoint_witness :
  let st := pageRun initialPage
              [Tick; SetAngle 359; Tick; TogglePlay; Tick; SetSpeed 10] in
  exists v, currentViewpoint
              (fst (buildDataset (ML := coarseMath) flatTerrain (mkWorld tt []))) st
            = Some v /\ angle v == currentAngle st.
Proof.
  assert (D : Forall deliverable
                [Tick; SetAngle 359; Tick; TogglePlay; Tick; SetSpeed 10]).
  { repeat constructor.
    - exists 359%Z. split; [reflexivity|lia].
    - exists 10%Z. split; [reflexivity|lia]. }
  exact (proj2 (proj2 (proj2
    (page_always_shows_a_viewpoint (ML := coarseMath) flatTerrain _
       (mkWorld tt []) D)))).
Defined.

Lemma ticks_advance (n : nat) :
  forall (st : PageState) (z : Z),
    playing st = true -> currentAngle st == inject_Z z -> (0 <= z <= 359)%Z ->
    let st' := pageRun st (repeat Tick n) in
    currentAngle st' == inject_Z ((z + Z.of_nat n) mod 360) /\
    playing st' = true /\ animationSpeed st' = animationSpeed st.
Proof.
  induction n as [|n IH]; intros st z Hp Ez Hz; cbn [repeat pageRun fold_left].
  - rewrite Z.add_0_r, Z.mod_small by lia. now repeat split.
  - change (fold_left pageStep ?es ?s) with (pageRun s es).
    cbn [pageStep]. rewrite Hp.
    pose proof (tick_angle _ _ Ez Hz) as T.
    pose proof (Z.mod_pos_bound (z + 1) 360) as Bz.
    destruct (IH (mkPageState (js_rem (currentAngle st + 1) 360) true
                    (animationSpeed st))
                 ((z + 1) mod 360)%Z eq_refl T) as (A & P & Sp); [lia|].
    cbv zeta in A, P, Sp. cbn [animationSpeed] in Sp.
    split; [|split; [exact P|exact Sp]].
    rewrite A. apply inject_Z_injective.
    rewrite Zplus_mod_idemp_l. f_equal. lia.
Qed.

(** X13.  While the page is playing and shows a whole degree [z] of 0..359,
    [n] firings of the interval lead to degree [(z + n) mod 360] and change
    nothing else; in particular 360 firings lead back to the same angle.
    While the page is paused no interval exists and the angle stays as it
    is. *)
Theorem animation_cycles (st : PageState) (z : Z) (n : nat) :
  currentAngle st == inject_Z z -> (0 <= z <= 359)%Z ->
  (playing st = true ->
   currentAngle (pageRun st (repeat Tick n)) ==
     inject_Z ((z + Z.of_nat n) mod 360) /\
   currentAngle (pageRun st (repeat Tick 360)) == currentAngle st /\
   playing (pageRun st (repeat Tick n)) = true /\
   animationSpeed (pageRun st (repeat Tick n)) = animationSpeed st) /\
  (playing st = false -> pageRun st (repeat Tick n) = st).
Proof.
  intros Ez Hz. split.
  - intros Hp.
    destruct (ticks_advance n st z Hp Ez Hz) as (A & P & Sp).
    destruct (ticks_advance 360 st z Hp Ez Hz) as (A' & _ & _).
    cbv zeta in *. split; [exact A|]. split; [|split; [exact P|exact Sp]].
    rewrite A', Ez. apply inject_Z_injective.
    change (Z.of_nat 360) with (1 * 360)%Z.
    rewrite Z.mod_add by lia. apply Z.mod_small. lia.
  - intros Hp. induction n as [|n IH]; cbn [repeat pageRun fold_left].
    + reflexivity.
    + change (fold_left pageStep ?es ?s) with (pageRun s es).
      cbn [pageStep]. rewrite Hp. exact IH.
Qed.

Lemma animation_cycles_witness :
  currentAngle (pageRun initialPage (repeat Tick 200)) == 27 /\
  currentAngle (pageRun initialPage (repeat Tick 360)) == 187.
Proof.
  assert (E : currentAngle initialPage == inject_Z 187) by reflexivity.
  assert (R : (0 <= 187 <= 359)%Z) by lia.
  destruct (proj1 (animation_cycles initialPage 187 200 E R) eq_refl)
    as (A & C & _).
  split; [exact A|exact C].
Defined.

(** * The rounded functions *)

(** ** What a faithful rounding keeps *)

Lemma Qfloor_js_rem_nonneg (y : Q) :
  0 <= y -> Qfloor (js_rem y 360) = (Qfloor y mod 360)%Z.
Proof.
  intros Hy. destruct (js_rem_360_nonneg y Hy) as [E [Lo Hi]].
  set (q := Qfloor (y / 360)) in *.
  assert (F : Qfloor (js_rem y 360) = (Qfloor y + - (360 * q))%Z).
  { rewrite <- Qfloor_add_Z. apply Qfloor_comp. rewrite E.
    rewrite inject_Z_opp, inject_Z_mult. change (inject_Z 360) with 360. lra. }
  destruct (Qfloor_bounds (js_rem y 360)) as [Flo Fhi].
  assert (R0 : (0 <= Qfloor (js_rem y 360))%Z).
  { change 0%Z with (Qfloor 0). now apply Qfloor_resp_le. }
  assert (R1 : (Qfloor (js_rem y 360) < 360)%Z).
  { rewrite Zlt_Qlt. change (inject_Z 360) with 360. lra. }
  rewrite F in *. apply (Z.mod_unique _ _ q); lia.
Qed.

Lemma Qfloor_js_rem_shift (x : Q) :
  (0 <= Qfloor (js_rem x 360 + 360) <= 719)%Z /\
  (Qfloor (js_rem x 360 + 360) mod 360 = Qfloor x mod 360)%Z.
Proof.
  destruct (js_rem_360_any x) as [E [Lo Hi]].
  set (k := Qtrunc (x / 360)) in *.
  assert (F : Qfloor (js_rem x 360 + 360) = (Qfloor x + (1 - k) * 360)%Z).
  { rewrite <- Qfloor_add_Z. apply Qfloor_comp. rewrite E.
    rewrite inject_Z_mult. unfold Z.sub. rewrite inject_Z_plus, inject_Z_opp.
    change (inject_Z 360) with 360. change (inject_Z 1) with 1. lra. }
  split.
  - destruct (Qfloor_bounds (js_rem x 360 + 360)) as [Flo Fhi]. split.
    + change 0%Z with (Qfloor 0). apply Qfloor_resp_le. lra.
    + assert (H : inject_Z (Qfloor (js_rem x 360 + 360)) < inject_Z 719 + 1)
        by (change (inject_Z 719) with 719; lra).
      now apply inject_Z_lt_succ in H.
  - rewrite F. apply Z.mod_add. lia.
Qed.

Lemma whole_floor (v : Q) (z : Z) : v == inject_Z z -> v == inject_Z (Qfloor v).
Proof. intros E. rewrite (Qfloor_comp _ _ E), Qfloor_Z. exact E. Qed.

Section FaithfulRounding.
Variable fl : Q -> Q.
Hypothesis Hfl : faithfulRounding fl.

Lemma rounding_comp (x y : Q) : x == y -> fl x == fl y.
Proof.
  intros E. apply Qle_antisym; apply (rounding_monotone fl Hfl); lra.
Qed.

(** A rounded number stays between the whole numbers around the exact one. *)
Lemma rounding_between (t : Q) (n : Z) :
  (Z.abs n <= 2 ^ 53 - 1)%Z -> inject_Z n <= t -> t <= inject_Z (n + 1) ->
  inject_Z n <= fl t <= inject_Z (n + 1).
Proof.
  intros Hn Lo Hi. split.
  - rewrite <- (rounding_whole fl Hfl n) by lia.
    now apply (rounding_monotone fl Hfl).
  - rewrite <- (rounding_whole fl Hfl (n + 1)) by lia.
    now apply (rounding_monotone fl Hfl).
Qed.

(** Rounding keeps the floor, or rounds up to the next whole number; a
    whole number is not changed. *)
Lemma floor_rounded (t : Q) :
  (Z.abs (Qfloor t) <= 2 ^ 53 - 1)%Z ->
  (Qfloor (fl t) = Qfloor t /\ (t == inject_Z (Qfloor t) -> fl t == t)) \/
  (fl t == inject_Z (Qfloor t + 1) /\ ~ t == inject_Z (Qfloor t)).
Proof.
  intros Hn. destruct (Qfloor_bounds t) as [Lo Hi].
  assert (Hi' : t <= inject_Z (Qfloor t + 1))
    by (rewrite inject_Z_plus; change (inject_Z 1) with 1; lra).
  destruct (rounding_between t (Qfloor t) Hn Lo Hi') as [A B].
  assert (W : t == inject_Z (Qfloor t) -> fl t == t).
  { intros E. transitivity (fl (inject_Z (Qfloor t))).
    - now apply rounding_comp.
    - rewrite (rounding_whole fl Hfl) by lia. now symmetry. }
  destruct (Qlt_le_dec (fl t) (inject_Z (Qfloor t + 1))) as [G|G].
  - left. split; [|exact W]. apply Qfloor_unique; [exact A|].
    rewrite inject_Z_plus in G. exact G.
  - right. split; [apply Qle_antisym; assumption|].
    intros E. specialize (W E). rewrite inject_Z_plus in G.
    change (inject_Z 1) with 1 in G. lra.
Qed.

Lemma rounded_normalizeAngle_range (x : Q) :
  0 <= Rounded.normalizeAngle fl x < 360.
Proof.
  unfold Rounded.normalizeAngle.
  destruct (js_rem_360_any x) as [_ [Lo Hi]].
  assert (P : 0 <= fl (js_rem x 360 + 360)).
  { rewrite <- (rounding_whole fl Hfl 0) by (cbn; lia).
    apply (rounding_monotone fl Hfl). change (inject_Z 0) with 0. lra. }
  destruct (js_rem_360_nonneg _ P) as [_ B]. exact B.
Qed.

(** The whole degrees of a normalised angle are those of the argument modulo
    360, or one more when the inner sum rounds up to a whole number; on a
    whole number the result is the integer modulo. *)
Lemma rounded_normalizeAngle_floor (x : Q) :
  exists d : Z, (0 <= d <= 1)%Z /\
    Qfloor (Rounded.normalizeAngle fl x) = ((Qfloor x + d) mod 360)%Z /\
    (x == inject_Z (Qfloor x) ->
     d = 0%Z /\
     Rounded.normalizeAngle fl x == inject_Z (Qfloor x mod 360)).
Proof.
  unfold Rounded.normalizeAngle.
  destruct (Qfloor_js_rem_shift x) as [[M0 M1] Mc].
  destruct (js_rem_360_any x) as [Er [Lo Hi]].
  set (y0 := js_rem x 360 + 360) in *. set (m := Qfloor y0) in *.
  assert (P : 0 <= fl y0).
  { rewrite <- (rounding_whole fl Hfl 0) by (cbn; lia).
    apply (rounding_monotone fl Hfl). change (inject_Z 0) with 0.
    subst y0. lra. }
  assert (Wy : x == inject_Z (Qfloor x) -> y0 == inject_Z m).
  { intros E. subst m.
    set (k := Qtrunc (x / 360)) in *. set (n := Qfloor x) in *.
    apply (whole_floor _ (n + (1 - k) * 360)). subst y0. rewrite Er.
    clearbody k n. rewrite E.
    rewrite inject_Z_plus, inject_Z_mult. unfold Z.sub.
    rewrite inject_Z_plus, inject_Z_opp.
    change (inject_Z 360) with 360. change (inject_Z 1) with 1. lra. }
  destruct (floor_rounded y0) as [[F W]|[F N]]; [fold m; lia| |].
  - exists 0%Z. split; [lia|]. rewrite Z.add_0_r.
    rewrite (Qfloor_js_rem_nonneg _ P), F. fold m. split; [exact Mc|].
    intros E. split; [reflexivity|].
    pose proof (Wy E) as Ey. fold m in W. specialize (W Ey).
    assert (V : js_rem (fl y0) 360 ==
                inject_Z (Qfloor (js_rem (fl y0) 360))).
    { destruct (js_rem_360_nonneg _ P) as [Ev _].
      set (q := Qfloor (fl y0 / 360)) in *.
      apply (whole_floor _ (m + - (360 * q))). rewrite Ev.
      rewrite inject_Z_plus, inject_Z_opp, inject_Z_mult.
      change (inject_Z 360) with 360. lra. }
    rewrite V, (Qfloor_js_rem_nonneg _ P), F. fold m. now rewrite Mc.
  - exists 1%Z. split; [lia|]. fold m in F, N.
    rewrite (Qfloor_js_rem_nonneg _ P).
    rewrite (Qfloor_comp _ _ F), Qfloor_Z. split.
    + rewrite <- Zplus_mod_idemp_l, Mc, Zplus_mod_idemp_l. reflexivity.
    + intros E. exfalso. apply N. now apply Wy.
Qed.
End FaithfulRounding.

Lemma rawPoints_cases {S : Type} (elevation : ElevationData S)
    (vp : Coordinate) (range : DirectionRange) (w : World S) :
  let lat := latitude vp in
  let lon := longitude vp in
  let single :=
    calculateHorizon elevation lat lon (range_start range) (range_end range)
      (handle_state w) in
  let first :=
    calculateHorizon elevation lat lon (range_start range) 359 (handle_state w) in
  let second :=
    calculateHorizon elevation lat lon 0 (range_end range) (snd first) in
  rawPoints elevation vp range w =
    if rangeWrapsAroundNorth range then
      (fst first ++ fst second,
       mkWorld (snd second)
         (query_log w ++
          [mkHorizonQuery lat lon (range_start range) 359;
           mkHorizonQuery lat lon 0 (range_end range)]))
    else
      (fst single,
       mkWorld (snd single)
         (query_log w ++
          [mkHorizonQuery lat lon (range_start range) (range_end range)])).
Proof.
  cbv zeta. unfold rawPoints. destruct (rangeWrapsAroundNorth range).
  - unfold bind, call_calculateHorizon, ret.
    destruct (calculateHorizon elevation _ _ (range_start range) 359 _)
      as [r1 s1].
    cbn [fst snd handle_state query_log].
    destruct (calculateHorizon elevation _ _ 0 (range_end range) s1)
      as [r2 s2].
    cbn [fst snd]. now rewrite <- app_assoc.
  - unfold call_calculateHorizon.
    now destruct (calculateHorizon elevation _ _ _ _ _).
Qed.

Lemma windowDegrees_facts (s e : Z) :
  (0 <= s <= 359)%Z -> (0 <= e <= 359)%Z ->
  length (windowDegrees s e) = Z.to_nat ((e - s) mod 360 + 1) /\
  NoDup (windowDegrees s e) /\
  Forall (fun d => (0 <= d <= 359)%Z) (windowDegrees s e).
Proof.
  intros Hs He. unfold windowDegrees.
  destruct (Z.ltb_spec e s) as [W|W]; split; [|split| |split].
  - rewrite length_app, !degreesBetween_length.
    Z.div_mod_to_equations. lia.
  - apply NoDup_app; try apply degreesBetween_NoDup.
    intros d H1 H2. apply degreesBetween_In in H1, H2. lia.
  - apply Forall_forall. intros d Hd. apply in_app_or in Hd.
    destruct Hd as [Hd|Hd]; apply degreesBetween_In in Hd; lia.
  - rewrite degreesBetween_length. Z.div_mod_to_equations. lia.
  - apply degreesBetween_NoDup.
  - apply Forall_forall. intros d Hd. apply degreesBetween_In in Hd. lia.
Qed.

Section RoundedRange.
Variable fl : Q -> Q.
Hypothesis Hfl : faithfulRounding fl.

#[local] Instance rounded_normalizeAngle_comp :
  Proper (Qeq ==> Qeq) (Rounded.normalizeAngle fl).
Proof.
  intros x y E. unfold Rounded.normalizeAngle.
  apply js_rem_comp; [|reflexivity]. apply (rounding_comp fl Hfl).
  now rewrite E.
Qed.

Lemma rounded_normalizeAngle_whole (z : Z) :
  Rounded.normalizeAngle fl (inject_Z z) == inject_Z (z mod 360).
Proof.
  destruct (rounded_normalizeAngle_floor fl Hfl (inject_Z z))
    as (d & _ & _ & W).
  rewrite Qfloor_Z in W. now destruct (W (Qeq_refl _)).
Qed.

Lemma rounded_shifted_floor (t : Q) :
  (Z.abs (Qfloor t) <= 2 ^ 53 - 1)%Z ->
  exists d : Z, (0 <= d <= 1)%Z /\
    Qfloor (Rounded.normalizeAngle fl (fl t)) = ((Qfloor t + d) mod 360)%Z /\
    (t == inject_Z (Qfloor t) -> d = 0%Z).
Proof.
  intros Hn. destruct (floor_rounded fl Hfl t Hn) as [[F W]|[F N]].
  - destruct (rounded_normalizeAngle_floor fl Hfl (fl t)) as (d & Hd & E & Wd).
    exists d. split; [exact Hd|]. rewrite F in E. split; [exact E|].
    intros Et. apply Wd. rewrite F. rewrite (W Et). exact Et.
  - exists 1%Z. split; [lia|]. split; [|intros Et; now contradiction N].
    rewrite (Qfloor_comp _ _ (rounded_normalizeAngle_comp _ _ F)).
    rewrite (Qfloor_comp _ _ (rounded_normalizeAngle_whole _)).
    apply Qfloor_Z.
Qed.

Lemma Qfloor_within (b : Q) (n : Z) :
  - inject_Z n <= b <= inject_Z n -> (Z.abs (Qfloor b) <= n)%Z.
Proof.
  intros [Lo Hi].
  assert (A : (Qfloor (inject_Z (- n)) <= Qfloor b)%Z)
    by (apply Qfloor_resp_le; rewrite inject_Z_opp; exact Lo).
  assert (B : (Qfloor b <= Qfloor (inject_Z n))%Z)
    by (apply Qfloor_resp_le; exact Hi).
  rewrite Qfloor_Z in A, B. lia.
Qed.

(** Each bound of the window is the exact whole degree, or the next one
    clockwise when a sum rounds up to a whole number. *)
Lemma rounded_range (b : Q) :
  - inject_Z (2 ^ 52) <= b <= inject_Z (2 ^ 52) ->
  exists ds de : Z, (0 <= ds <= 1)%Z /\ (0 <= de <= 1)%Z /\
    Rounded.calculateDirectionRange fl b =
      {| range_start := inject_Z ((Qfloor b - 45 + ds) mod 360);
         range_end := inject_Z ((Qfloor b + 45 + de) mod 360) |} /\
    (b == inject_Z (Qfloor b) -> ds = 0%Z /\ de = 0%Z).
Proof.
  intros Hb. pose proof (Qfloor_within b _ Hb) as Hf.
  assert (Fs : Qfloor (b - HALF_FOV_DEGREES) = (Qfloor b - 45)%Z).
  { unfold Z.sub. rewrite <- Qfloor_add_Z. apply Qfloor_comp.
    unfold HALF_FOV_DEGREES. change (inject_Z (- (45))) with (-45). lra. }
  assert (Fe : Qfloor (b + HALF_FOV_DEGREES) = (Qfloor b + 45)%Z).
  { rewrite <- Qfloor_add_Z. reflexivity. }
  assert (P : (2 ^ 52 + 45 <= 2 ^ 53 - 1)%Z) by (cbn; lia).
  destruct (rounded_shifted_floor (b - HALF_FOV_DEGREES))
    as (ds & Hds & Es & Ws); [rewrite Fs; lia|].
  destruct (rounded_shifted_floor (b + HALF_FOV_DEGREES))
    as (de & Hde & Ee & We); [rewrite Fe; lia|].
  exists ds, de. split; [exact Hds|]. split; [exact Hde|]. split.
  - unfold Rounded.calculateDirectionRange, Math_floor.
    rewrite Es, Ee, Fs, Fe. reflexivity.
  - intros Eb. split.
    + apply Ws. rewrite Fs. unfold Z.sub.
      rewrite inject_Z_plus, inject_Z_opp.
      unfold HALF_FOV_DEGREES. change (inject_Z 45) with 45. lra.
    + apply We. rewrite Fe. rewrite inject_Z_plus.
      unfold HALF_FOV_DEGREES. change (inject_Z 45) with 45. lra.
Qed.
End RoundedRange.

(** ** The binary64 rounding is a faithful rounding *)

Lemma pow2_pos (k : Z) : 0 < 2 ^ k.
Proof. apply Qpower_0_lt. reflexivity. Qed.

Lemma pow2_add (j k : Z) : 2 ^ (j + k) == 2 ^ j * 2 ^ k.
Proof. apply Qpower_plus. discriminate. Qed.

Lemma pow2_succ (k : Z) : 2 ^ (k + 1) == 2 * 2 ^ k.
Proof. rewrite pow2_add. change (2 ^ 1) with 2. lra. Qed.

Lemma pow2_Z (k : Z) : (0 <= k)%Z -> inject_Z (2 ^ k) == 2 ^ k.
Proof. intros H. now rewrite Zpower_Qpower. Qed.

Lemma pow2_le (j k : Z) : (j <= k)%Z -> 2 ^ j <= 2 ^ k.
Proof. intros H. apply Qpower_le_compat_l; [exact H|discriminate]. Qed.

Lemma pow2_lt_inv (j k : Z) : 2 ^ j < 2 ^ k -> (j < k)%Z.
Proof. intros H. apply (Qpower_lt_compat_l_inv 2); [exact H|reflexivity]. Qed.

Lemma binade_spec (a : Q) :
  0 < a -> 2 ^ binade a <= a /\ a < 2 ^ (binade a + 1).
Proof.
  intros Ha. unfold binade. destruct a as [n d]. cbn [Qnum Qden].
  assert (Hn : (0 < n)%Z).
  { unfold Qlt in Ha. cbn in Ha. lia. }
  set (ln := Z.log2 n). set (ld := Z.log2 (Z.pos d)).
  assert (Ln : (0 <= ln)%Z) by apply Z.log2_nonneg.
  assert (Ld : (0 <= ld)%Z) by apply Z.log2_nonneg.
  destruct (Z.log2_spec n Hn) as [N0 N1]. fold ln in N0, N1.
  destruct (Z.log2_spec (Z.pos d) (Pos2Z.is_pos d)) as [D0 D1].
  fold ld in D0, D1.
  rewrite Zle_Qle in N0, D0. rewrite Zlt_Qlt in N1, D1.
  unfold Z.succ in N1, D1.
  rewrite pow2_Z in N0, D0 by lia. rewrite pow2_Z in N1, D1 by lia.
  rewrite pow2_succ in N1, D1.
  assert (E : n # d == inject_Z n / inject_Z (Z.pos d)) by apply Qmake_Qdiv.
  assert (K : 2 ^ (ln - ld) == 2 ^ ln / 2 ^ ld)
    by (apply Qpower_minus; discriminate).
  pose proof (pow2_pos ln) as Pn. pose proof (pow2_pos ld) as Pd.
  set (N := inject_Z n) in *. set (D := inject_Z (Z.pos d)) in *.
  set (P := 2 ^ ln) in *. set (R := 2 ^ ld) in *.
  assert (HD : 0 < D) by lra.
  assert (Up : n # d < 2 * (P / R)).
  { rewrite E. apply Qlt_shift_div_r; [exact HD|].
    assert (X : 2 * (P / R) * D == 2 * P * D / R) by (field; lra).
    rewrite X. apply Qlt_shift_div_l; [exact Pd|]. nra. }
  assert (Lo : P / R < 2 * (n # d)).
  { rewrite E. apply Qlt_shift_div_r; [exact Pd|].
    assert (X : 2 * (N / D) * R == 2 * N * R / D) by (field; lra).
    rewrite X. apply Qlt_shift_div_l; [exact HD|]. nra. }
  destruct (Qle_bool (2 ^ (ln - ld)) (n # d)) eqn:T.
  - apply Qle_bool_iff in T. split; [exact T|].
    rewrite pow2_succ, K. exact Up.
  - assert (T' : n # d < 2 ^ (ln - ld)).
    { apply Qnot_le_lt. intros H. apply Qle_bool_iff in H. congruence. }
    replace (ln - ld - 1 + 1)%Z with (ln - ld)%Z by lia.
    split; [|exact T'].
    assert (S : 2 ^ (ln - ld) == 2 * 2 ^ (ln - ld - 1)).
    { rewrite <- pow2_succ. now replace (ln - ld - 1 + 1)%Z with (ln - ld)%Z by lia. }
    rewrite K in S. lra.
Qed.

Lemma binade_monotone (a a' : Q) :
  0 < a -> a <= a' -> (binade a <= binade a')%Z.
Proof.
  intros Ha H. destruct (binade_spec a Ha) as [L _].
  destruct (binade_spec a') as [_ U]; [lra|].
  assert (X : 2 ^ binade a < 2 ^ (binade a' + 1)) by lra.
  apply pow2_lt_inv in X. lia.
Qed.

Lemma binade_unique (a : Q) (k : Z) :
  2 ^ k <= a -> a < 2 ^ (k + 1) -> binade a = k.
Proof.
  intros L U. pose proof (pow2_pos k) as P.
  destruct (binade_spec a) as [L' U']; [lra|].
  assert (X : 2 ^ binade a < 2 ^ (k + 1)) by lra.
  assert (Y : 2 ^ k < 2 ^ (binade a + 1)) by lra.
  apply pow2_lt_inv in X, Y. lia.
Qed.

Lemma roundHalfEven_cases (t : Q) :
  roundHalfEven t = Qfloor t \/ roundHalfEven t = (Qfloor t + 1)%Z.
Proof.
  unfold roundHalfEven.
  destruct (Qcompare _ _); [destruct (Z.even _)| |]; auto.
Qed.

Lemma roundHalfEven_whole (t : Q) (z : Z) :
  t == inject_Z z -> roundHalfEven t = z.
Proof.
  intros E. unfold roundHalfEven.
  assert (F : Qfloor t = z) by (rewrite (Qfloor_comp _ _ E); apply Qfloor_Z).
  rewrite F.
  destruct (Qcompare_spec (t - inject_Z z) (1 # 2)) as [H|H|H]; try lra.
  reflexivity.
Qed.

Lemma roundHalfEven_monotone (t t' : Q) :
  t <= t' -> (roundHalfEven t <= roundHalfEven t')%Z.
Proof.
  intros H. pose proof (Qfloor_resp_le _ _ H) as F.
  destruct (Z.eq_dec (Qfloor t) (Qfloor t')) as [E|N].
  - unfold roundHalfEven. rewrite <- E.
    destruct (Qcompare_spec (t - inject_Z (Qfloor t)) (1 # 2)) as [A|A|A];
      destruct (Qcompare_spec (t' - inject_Z (Qfloor t)) (1 # 2)) as [B|B|B];
      try lra; try destruct (Z.even (Qfloor t)); lia.
  - destruct (roundHalfEven_cases t) as [-> | ->];
      destruct (roundHalfEven_cases t') as [-> | ->]; lia.
Qed.

Lemma roundHalfEven_above (t : Q) (z : Z) :
  inject_Z z <= t -> (z <= roundHalfEven t)%Z.
Proof.
  intros H. pose proof (roundHalfEven_monotone _ _ H) as M.
  now rewrite (roundHalfEven_whole (inject_Z z) z) in M by reflexivity.
Qed.

Lemma roundHalfEven_below (t : Q) (z : Z) :
  t <= inject_Z z -> (roundHalfEven t <= z)%Z.
Proof.
  intros H. pose proof (roundHalfEven_monotone _ _ H) as M.
  now rewrite (roundHalfEven_whole (inject_Z z) z) in M by reflexivity.
Qed.

Lemma scaled_range (a : Q) :
  0 < a ->
  inject_Z (2 ^ 52) <= a / 2 ^ (binade a - 52) /\
  a / 2 ^ (binade a - 52) <= inject_Z (2 ^ 53).
Proof.
  intros Ha. destruct (binade_spec a Ha) as [L U].
  pose proof (pow2_pos (binade a - 52)) as Pu.
  assert (E1 : 2 ^ binade a == 2 ^ 52 * 2 ^ (binade a - 52)).
  { rewrite <- pow2_add. now replace (52 + (binade a - 52))%Z with (binade a) by lia. }
  assert (E2 : 2 ^ (binade a + 1) == 2 ^ 53 * 2 ^ (binade a - 52)).
  { rewrite <- pow2_add. now replace (53 + (binade a - 52))%Z with (binade a + 1)%Z by lia. }
  rewrite !pow2_Z by lia. split.
  - apply Qle_shift_div_l; [exact Pu|]. lra.
  - apply Qle_shift_div_r; [exact Pu|]. lra.
Qed.

Lemma roundPositive_bounds (a : Q) :
  0 < a ->
  2 ^ binade a <= roundPositive a /\ roundPositive a <= 2 ^ (binade a + 1).
Proof.
  intros Ha. unfold roundPositive. cbv zeta.
  destruct (scaled_range a Ha) as [L U].
  pose proof (pow2_pos (binade a - 52)) as Pu.
  apply roundHalfEven_above in L. apply roundHalfEven_below in U.
  rewrite Zle_Qle in L, U. rewrite !pow2_Z in L, U by lia.
  assert (E1 : 2 ^ binade a == 2 ^ 52 * 2 ^ (binade a - 52)).
  { rewrite <- pow2_add. now replace (52 + (binade a - 52))%Z with (binade a) by lia. }
  assert (E2 : 2 ^ (binade a + 1) == 2 ^ 53 * 2 ^ (binade a - 52)).
  { rewrite <- pow2_add. now replace (53 + (binade a - 52))%Z with (binade a + 1)%Z by lia. }
  rewrite E1, E2. set (u := 2 ^ (binade a - 52)) in *.
  set (m := inject_Z (roundHalfEven (a / u))) in *. split; nra.
Qed.

Lemma roundPositive_monotone (a a' : Q) :
  0 < a -> a <= a' -> roundPositive a <= roundPositive a'.
Proof.
  intros Ha H. assert (Ha' : 0 < a') by lra.
  pose proof (binade_monotone a a' Ha H) as K.
  destruct (Z.eq_dec (binade a) (binade a')) as [E|N].
  - unfold roundPositive. cbv zeta. rewrite <- E.
    pose proof (pow2_pos (binade a - 52)) as Pu.
    set (u := 2 ^ (binade a - 52)) in *.
    assert (D : a / u <= a' / u).
    { apply Qle_shift_div_l; [exact Pu|].
      assert (X : a / u * u == a) by (field; lra). lra. }
    apply roundHalfEven_monotone in D. rewrite Zle_Qle in D.
    set (m := inject_Z (roundHalfEven (a / u))) in *.
    set (m' := inject_Z (roundHalfEven (a' / u))) in *. nra.
  - destruct (roundPositive_bounds a Ha) as [_ U].
    destruct (roundPositive_bounds a' Ha') as [L _].
    assert (P : 2 ^ (binade a + 1) <= 2 ^ binade a') by (apply pow2_le; lia).
    lra.
Qed.

Lemma roundPositive_pos (a : Q) : 0 < a -> 0 < roundPositive a.
Proof.
  intros Ha. destruct (roundPositive_bounds a Ha) as [L _].
  pose proof (pow2_pos (binade a)). lra.
Qed.

Lemma round64_monotone (x y : Q) : x <= y -> round64 x <= round64 y.
Proof.
  intros H. unfold round64.
  destruct (Qcompare_spec x 0) as [X|X|X];
    destruct (Qcompare_spec y 0) as [Y|Y|Y]; try lra.
  - pose proof (roundPositive_pos y Y). lra.
  - assert (P : 0 < - x) by lra. pose proof (roundPositive_pos _ P). lra.
  - assert (P : 0 < - y) by lra.
    assert (M : - y <= - x) by lra.
    pose proof (roundPositive_monotone _ _ P M). lra.
  - assert (P : 0 < - x) by lra. pose proof (roundPositive_pos _ P).
    pose proof (roundPositive_pos y Y). lra.
  - now apply roundPositive_monotone.
Qed.

Lemma roundPositive_whole (z : Z) :
  (0 < z <= 2 ^ 53)%Z -> roundPositive (inject_Z z) == inject_Z z.
Proof.
  intros [Z0 Z1]. unfold roundPositive. cbv zeta.
  assert (Ha : 0 < inject_Z z).
  { change 0 with (inject_Z 0). now rewrite <- Zlt_Qlt. }
  destruct (binade_spec _ Ha) as [L U].
  set (k := binade (inject_Z z)) in *.
  pose proof (pow2_pos (k - 52)) as Pu.
  assert (K : (k <= 53)%Z).
  { assert (X : 2 ^ k < 2 ^ (53 + 1)).
    { rewrite Zle_Qle in Z1. rewrite pow2_Z in Z1 by lia.
      pose proof (pow2_le 53 (53 + 1)). 
      assert (Y : 2 ^ 53 < 2 ^ (53 + 1)).
      { rewrite pow2_succ. pose proof (pow2_pos 53). lra. }
      lra. }
    apply pow2_lt_inv in X. lia. }
  assert (W : exists w : Z, inject_Z z / 2 ^ (k - 52) == inject_Z w).
  { destruct (Z.eq_dec k 53) as [E|N].
    - exists (2 ^ 52)%Z.
      assert (Ez : z = (2 ^ 53)%Z).
      { rewrite E in L. rewrite <- pow2_Z in L by lia.
        rewrite <- Zle_Qle in L. lia. }
      rewrite E, Ez. reflexivity.
    - exists (z * 2 ^ (52 - k))%Z.
      rewrite inject_Z_mult, pow2_Z by lia.
      assert (X : 2 ^ (52 - k) * 2 ^ (k - 52) == 1).
      { rewrite <- pow2_add. now replace (52 - k + (k - 52))%Z with 0%Z by lia. }
      assert (G : inject_Z z / 2 ^ (k - 52) * 2 ^ (k - 52) == inject_Z z)
        by (field; lra).
      set (u := 2 ^ (k - 52)) in *. set (v := 2 ^ (52 - k)) in *.
      set (d := inject_Z z / u) in *.
      transitivity (d * (v * u)); [rewrite X; ring|].
      rewrite <- G. ring. }
  destruct W as (w & Ew). rewrite (roundHalfEven_whole _ w Ew).
  rewrite <- Ew. field. lra.
Qed.

Lemma round64_whole (z : Z) :
  (Z.abs z <= 2 ^ 53)%Z -> round64 (inject_Z z) == inject_Z z.
Proof.
  intros H. unfold round64.
  destruct (Qcompare_spec (inject_Z z) 0) as [X|X|X].
  - now symmetry.
  - change 0 with (inject_Z 0) in X. rewrite <- Zlt_Qlt in X.
    assert (E : - inject_Z z == inject_Z (- z)) by now rewrite inject_Z_opp.
    assert (R : roundPositive (- inject_Z z) == roundPositive (inject_Z (- z))).
    { unfold Qopp, inject_Z. reflexivity. }
    rewrite R, roundPositive_whole by lia. rewrite inject_Z_opp. lra.
  - change 0 with (inject_Z 0) in X. rewrite <- Zlt_Qlt in X.
    apply roundPositive_whole. lia.
Qed.

Lemma exact_faithful : faithfulRounding (fun q : Q => q).
Proof.
  split; [intros x y H; exact H|intros z _; reflexivity].
Qed.

Lemma round64_faithful : faithfulRounding round64.
Proof.
  split; [exact round64_monotone|exact round64_whole].
Qed.

(** With exact arithmetic for the rounding, the rounded functions are the
    functions of the exact model. *)
Lemma exact_rounding_agrees (x b : Q) (point : RawHorizonPoint) :
  Rounded.normalizeAngle (fun q => q) x = normalizeAngle x /\
  Rounded.normalizeRelativeDirection (fun q => q) x =
    normalizeRelativeDirection x /\
  Rounded.calculateDirectionRange (fun q => q) b = calculateDirectionRange b /\
  Rounded.transformToRelativeDirection (fun q => q) point b =
    transformToRelativeDirection point b.
Proof. repeat split; reflexivity. Qed.

(** ** Normalisation in double arithmetic *)

Section RoundedNormalisation.
Variable fl : Q -> Q.
Hypothesis Hfl : faithfulRounding fl.

Lemma rounding_within (t : Q) (lo hi : Z) :
  (Z.abs lo <= 2 ^ 53)%Z -> (Z.abs hi <= 2 ^ 53)%Z ->
  inject_Z lo <= t <= inject_Z hi -> inject_Z lo <= fl t <= inject_Z hi.
Proof.
  intros Hlo Hhi [Lo Hi]. split.
  - rewrite <- (rounding_whole fl Hfl lo Hlo).
    now apply (rounding_monotone fl Hfl).
  - rewrite <- (rounding_whole fl Hfl hi Hhi).
    now apply (rounding_monotone fl Hfl).
Qed.

Lemma rounded_normalizeRelativeDirection_range (v : Q) :
  -540 <= v <= 540 ->
  -180 <= Rounded.normalizeRelativeDirection fl v <= 180.
Proof.
  intros [Lo Hi]. unfold Rounded.normalizeRelativeDirection.
  destruct (Qlt_le_dec 180 v); [|destruct (Qlt_le_dec v (-180))].
  - apply (rounding_within _ (-180) 180); [cbn; lia|cbn; lia|].
    change (inject_Z (-180)) with (-180). change (inject_Z 180) with 180.
    split; lra.
  - apply (rounding_within _ (-180) 180); [cbn; lia|cbn; lia|].
    change (inject_Z (-180)) with (-180). change (inject_Z 180) with 180.
    split; lra.
  - split; lra.
Qed.

(** C7 (amended).  In exact and in double arithmetic: for every number
    [x], negative ones included, [normalizeAngle x] lies in [0, 360), and on
    a whole number [z], negative or not, it is [z mod 360], the true modulo;
    for every number [y] within one and a half turns of zero
    ([-540 <= y <= 540]), [normalizeRelativeDirection y] lies in
    [-180, 180]. *)
Theorem normalization_ranges (x y : Q) (z : Z) :
  -540 <= y <= 540 ->
  (0 <= normalizeAngle x < 360 /\
   0 <= Rounded.normalizeAngle fl x < 360) /\
  (normalizeAngle (inject_Z z) == inject_Z (z mod 360) /\
   Rounded.normalizeAngle fl (inject_Z z) == inject_Z (z mod 360)) /\
  (-180 <= normalizeRelativeDirection y <= 180 /\
   -180 <= Rounded.normalizeRelativeDirection fl y <= 180).
Proof.
  intros Hy. split; [|split].
  - split; [|apply (rounded_normalizeAngle_range fl Hfl)].
    destruct (normalizeAngle_turns x) as (k & _ & B). exact B.
  - split; [|apply (rounded_normalizeAngle_whole fl Hfl)].
    apply (rounded_normalizeAngle_whole (fun q => q) exact_faithful).
  - split; [now apply normalizeRelativeDirection_range|].
    now apply rounded_normalizeRelativeDirection_range.
Qed.

End RoundedNormalisation.

Lemma normalization_ranges_witness :
  (0 <= Rounded.normalizeAngle round64 double_minus_0_2 < 360) /\
  Rounded.normalizeAngle round64 (inject_Z (-725)) ==
    inject_Z ((-725) mod 360) /\
  (-180 <= Rounded.normalizeRelativeDirection round64 (-200) <= 180).
Proof.
  assert (Hy : -540 <= -200 <= 540) by (split; discriminate).
  destruct (normalization_ranges round64 round64_faithful
              double_minus_0_2 (-200) (-725) Hy)
    as ((_ & A) & (_ & M) & (_ & R)).
  split; [exact A|]. split; [exact M|exact R].
Defined.

(** C7 as stated fails: [normalizeRelativeDirection] shifts by at most one
    turn, so 1000 is mapped to 640, outside [-180, 180], in exact and in
    double arithmetic. *)
Lemma normalizeRelativeDirection_out_of_range :
  normalizeRelativeDirection 1000 == 640 /\
  Rounded.normalizeRelativeDirection round64 1000 == 640 /\
  ~ (-180 <= normalizeRelativeDirection 1000 <= 180) /\
  ~ (-180 <= Rounded.normalizeRelativeDirection round64 1000 <= 180).
Proof.
  split; [reflexivity|]. split; [vm_compute; reflexivity|].
  split; intros [_ H]; vm_compute in H; apply H; reflexivity.
Qed.



(** ** The window in double arithmetic *)

Section RoundedWindow.
Context {S : Type} (elevation : ElevationData S).
Variable fl : Q -> Q.
Hypothesis Hfl : faithfulRounding fl.

Lemma rounded_calculateHorizonForViewpoint_run
    (vp : Coordinate) (b : Q) (w : World S) :
  Rounded.calculateHorizonForViewpoint fl elevation vp b w =
    (Array_sort
       (fun pointA pointB =>
          fl (relativeDirection pointA - relativeDirection pointB))
       (map (fun point => Rounded.transformToRelativeDirection fl point b)
          (fst (rawPoints elevation vp (Rounded.calculateDirectionRange fl b) w))),
     snd (rawPoints elevation vp (Rounded.calculateDirectionRange fl b) w)).
Proof.
  unfold Rounded.calculateHorizonForViewpoint. cbv zeta. unfold bind, ret.
  now destruct (rawPoints elevation vp _ w).
Qed.

(** The bounds of the window on the integer grid: each is the exact whole
    degree or the next one clockwise, so the end lies 89, 90 or 91 degrees
    clockwise of the start, and 90 for a whole-number bearing. *)
Lemma rounded_window (b : Q) :
  - inject_Z (2 ^ 52) <= b <= inject_Z (2 ^ 52) ->
  exists s e ds de : Z,
    Rounded.calculateDirectionRange fl b =
      {| range_start := inject_Z s; range_end := inject_Z e |} /\
    s = ((Qfloor b - 45 + ds) mod 360)%Z /\
    e = ((Qfloor b + 45 + de) mod 360)%Z /\
    (0 <= ds <= 1)%Z /\ (0 <= de <= 1)%Z /\
    (b == inject_Z (Qfloor b) -> ds = 0%Z /\ de = 0%Z) /\
    (0 <= s < 360)%Z /\ (0 <= e < 360)%Z /\
    ((e - s) mod 360 = 90 + de - ds)%Z.
Proof.
  intros Hb. destruct (rounded_range fl Hfl b Hb) as (ds & de & Hds & Hde & E & W).
  exists ((Qfloor b - 45 + ds) mod 360)%Z, ((Qfloor b + 45 + de) mod 360)%Z, ds, de.
  split; [exact E|]. split; [reflexivity|]. split; [reflexivity|].
  split; [exact Hds|]. split; [exact Hde|]. split; [exact W|].
  split; [apply Z.mod_pos_bound; lia|]. split; [apply Z.mod_pos_bound; lia|].
  generalize (Qfloor b). intros f. Z.div_mod_to_equations. lia.
Qed.

Lemma Qfloor_degree (v : Q) : 0 <= v < 360 -> (0 <= Qfloor v <= 359)%Z.
Proof.
  intros [Lo Hi]. destruct (Qfloor_bounds v) as [Flo Fhi]. split.
  - change 0%Z with (Qfloor 0). now apply Qfloor_resp_le.
  - assert (H : inject_Z (Qfloor v) < inject_Z 359 + 1)
      by (change (inject_Z 359) with 359; lra).
    now apply inject_Z_lt_succ in H.
Qed.

(** C5.  In exact and in double arithmetic: for every bearing [b],
    [calculateDirectionRange b] has
    [start = floor (normalizeAngle (b - 45))] and
    [end = floor (normalizeAngle (b + 45))]; both are whole degrees in
    0..359; [calculateDirectionRange 0] is [{315, 45}] and wraps, and
    [calculateDirectionRange 90] is [{45, 135}] and does not wrap. *)
Theorem calculateDirectionRange_spec (b : Q) :
  (range_start (calculateDirectionRange b) =
     Math_floor (normalizeAngle (b - 45)) /\
   range_end (calculateDirectionRange b) =
     Math_floor (normalizeAngle (b + 45)) /\
   calculateDirectionRange 0 = {| range_start := 315; range_end := 45 |} /\
   rangeWrapsAroundNorth (calculateDirectionRange 0) = true /\
   calculateDirectionRange 90 = {| range_start := 45; range_end := 135 |} /\
   rangeWrapsAroundNorth (calculateDirectionRange 90) = false) /\
  (range_start (Rounded.calculateDirectionRange fl b) =
     Math_floor (Rounded.normalizeAngle fl (fl (b - 45))) /\
   range_end (Rounded.calculateDirectionRange fl b) =
     Math_floor (Rounded.normalizeAngle fl (fl (b + 45))) /\
   Rounded.calculateDirectionRange fl 0 =
     {| range_start := 315; range_end := 45 |} /\
   rangeWrapsAroundNorth (Rounded.calculateDirectionRange fl 0) = true /\
   Rounded.calculateDirectionRange fl 90 =
     {| range_start := 45; range_end := 135 |} /\
   rangeWrapsAroundNorth (Rounded.calculateDirectionRange fl 90) = false) /\
  (exists s e s' e' : Z,
     calculateDirectionRange b =
       {| range_start := inject_Z s; range_end := inject_Z e |} /\
     Rounded.calculateDirectionRange fl b =
       {| range_start := inject_Z s'; range_end := inject_Z e' |} /\
     (0 <= s <= 359)%Z /\ (0 <= e <= 359)%Z /\
     (0 <= s' <= 359)%Z /\ (0 <= e' <= 359)%Z).
Proof.
  assert (B : forall n : Z, (Z.abs n <= 360)%Z ->
             - inject_Z (2 ^ 52) <= inject_Z n <= inject_Z (2 ^ 52)).
  { intros n Hn. rewrite <- inject_Z_opp, <- !Zle_Qle.
    assert (P : (360 <= 2 ^ 52)%Z) by (cbn; lia). lia. }
  assert (C0 : Rounded.calculateDirectionRange fl 0 =
               {| range_start := 315; range_end := 45 |}).
  { destruct (rounded_range fl Hfl (inject_Z 0) (B 0%Z ltac:(lia)))
      as (ds & de & _ & _ & E & W).
    destruct (W (Qeq_refl _)) as [-> ->]. exact E. }
  assert (C90 : Rounded.calculateDirectionRange fl 90 =
                {| range_start := 45; range_end := 135 |}).
  { destruct (rounded_range fl Hfl (inject_Z 90) (B 90%Z ltac:(lia)))
      as (ds & de & _ & _ & E & W).
    destruct (W (Qeq_refl _)) as [-> ->]. exact E. }
  split; [repeat split; reflexivity|]. split.
  - split; [reflexivity|]. split; [reflexivity|].
    rewrite C0, C90. repeat split; reflexivity.
  - exists (Qfloor (normalizeAngle (b - HALF_FOV_DEGREES))),
           (Qfloor (normalizeAngle (b + HALF_FOV_DEGREES))),
           (Qfloor (Rounded.normalizeAngle fl (fl (b - HALF_FOV_DEGREES)))),
           (Qfloor (Rounded.normalizeAngle fl (fl (b + HALF_FOV_DEGREES)))).
    split; [reflexivity|]. split; [reflexivity|].
    assert (X : forall v, 0 <= normalizeAngle v < 360).
    { intros v. destruct (normalizeAngle_turns v) as (k & _ & R). exact R. }
    repeat split; apply Qfloor_degree;
      try apply X; apply (rounded_normalizeAngle_range fl Hfl).
Qed.



(** X4.  In double arithmetic the window of a bearing [b] wraps through
    north when the whole degrees of [b] modulo 360 are less than 44 or at
    least 315, and does not wrap when they are from 45 to 313; at 44 and
    at 314 a rounded sum decides.  For a whole-number bearing the window
    wraps exactly when the bearing modulo 360 is less than 45 or at least
    315. *)
Theorem wraps_iff_near_north (b : Q) :
  - inject_Z (2 ^ 52) <= b <= inject_Z (2 ^ 52) ->
  let f := (Qfloor b mod 360)%Z in
  let wraps := rangeWrapsAroundNorth (Rounded.calculateDirectionRange fl b) in
  ((f < 44 \/ 315 <= f)%Z -> wraps = true) /\
  ((45 <= f < 314)%Z -> wraps = false) /\
  (b == inject_Z (Qfloor b) -> wraps = ((f <? 45) || (315 <=? f))%Z).
Proof.
  intros Hb f wraps. subst f wraps.
  destruct (rounded_window b Hb)
    as (s & e & ds & de & E & Es & Ee & Hds & Hde & W & _ & _ & _).
  rewrite E, rangeWrapsAroundNorth_grid. subst s e. clear E.
  set (g := Qfloor b) in *. clearbody g.
  split; [|split].
  - intros H. apply Z.ltb_lt. Z.div_mod_to_equations. lia.
  - intros H. apply Z.ltb_ge. Z.div_mod_to_equations. lia.
  - intros Eb. destruct (W Eb) as [-> ->]. clear W Hds Hde.
    destruct (Z.ltb_spec ((g + 45 + 0) mod 360) ((g - 45 + 0) mod 360));
      destruct (Z.ltb_spec (g mod 360) 45);
      destruct (Z.leb_spec 315 (g mod 360)); cbn [orb]; try reflexivity;
      exfalso; Z.div_mod_to_equations; lia.
Qed.
End RoundedWindow.

Lemma calculateDirectionRange_spec_witness :
  Rounded.calculateDirectionRange round64 0 =
    {| range_start := 315; range_end := 45 |} /\
  rangeWrapsAroundNorth (Rounded.calculateDirectionRange round64 0) = true /\
  Rounded.calculateDirectionRange round64 90 =
    {| range_start := 45; range_end := 135 |} /\
  rangeWrapsAroundNorth (Rounded.calculateDirectionRange round64 90) = false.
Proof.
  destruct (calculateDirectionRange_spec round64 round64_faithful
              double_13_999999999999968)
    as (_ & (_ & _ & A & B & C & D) & _).
  split; [exact A|]. split; [exact B|]. split; [exact C|exact D].
Defined.



(** More windows in doubles: 92 degrees again at [149.99999999999994]; no
    wrap at [44.99999999999999], whose whole degrees are 44; and 90 degrees
    at [315.99999999999994]. *)
Example windows_in_doubles :
  Rounded.calculateDirectionRange round64 double_149_99999999999994 =
    {| range_start := 104; range_end := 195 |} /\
  Rounded.calculateDirectionRange round64 double_44_99999999999999 =
    {| range_start := 0; range_end := 90 |} /\
  rangeWrapsAroundNorth
    (Rounded.calculateDirectionRange round64 double_44_99999999999999) = false /\
  Rounded.calculateDirectionRange round64 double_315_99999999999994 =
    {| range_start := 271; range_end := 0 |} /\
  Rounded.calculateDirectionRange round64 0 =
    {| range_start := 315; range_end := 45 |} /\
  Rounded.calculateDirectionRange round64 90 =
    {| range_start := 45; range_end := 135 |}.
Proof. vm_compute. repeat split; reflexivity. Qed.

Lemma wraps_iff_near_north_witness :
  rangeWrapsAroundNorth
    (Rounded.calculateDirectionRange round64 double_13_999999999999968) = true.
Proof.
  assert (Hb : - inject_Z (2 ^ 52) <= double_13_999999999999968 <=
               inject_Z (2 ^ 52)) by (split; vm_compute; discriminate).
  apply (proj1 (wraps_iff_near_north round64 round64_faithful
                  double_13_999999999999968 Hb)).
  left. vm_compute. reflexivity.
Defined.

(** ** The horizon in double arithmetic *)

Section SortOnList.
Context {A : Type} (key : A -> Q) (c : A -> A -> Q).

(** Sorting is by the sign of the comparator: it is enough that the sign is
    right on the elements of the list. *)
Lemma sort_insert_sorted_on (x : A) (l : list A) :
  (forall y, In y l -> (0 < c x y <-> key y < key x)) ->
  StronglySorted (fun a b => key a <= key b) l ->
  StronglySorted (fun a b => key a <= key b) (sort_insert c x l).
Proof.
  intros Hc Hs. induction Hs as [|y l Hs IH Hy]; cbn [sort_insert].
  - repeat constructor.
  - assert (Hxy : 0 < c x y <-> key y < key x) by (apply Hc; now left).
    destruct (Qlt_le_dec 0 (c x y)) as [G|G].
    + constructor; [apply IH; intros z Hz; apply Hc; now right|].
      rewrite (sort_insert_perm c x l). constructor; [|exact Hy].
      apply Hxy in G. lra.
    + assert (Le : key x <= key y).
      { destruct (Qlt_le_dec (key y) (key x)) as [T|T]; [|exact T].
        apply Hxy in T. lra. }
      constructor; [now constructor|].
      constructor; [exact Le|].
      eapply Forall_impl; [|exact Hy]. cbv beta. intros z Hz. lra.
Qed.

Lemma Array_sort_sorted_on (l : list A) :
  (forall x y, In x l -> In y l -> (0 < c x y <-> key y < key x)) ->
  StronglySorted (fun a b => key a <= key b) (Array_sort c l).
Proof.
  induction l as [|x l IH]; intros Hc; cbn [Array_sort]; [constructor|].
  apply sort_insert_sorted_on.
  - intros y Hy. apply Hc; [now left|right].
    eapply Permutation_in; [apply Array_sort_perm|exact Hy].
  - apply IH. intros y z Hy Hz. apply Hc; now right.
Qed.
End SortOnList.

Lemma ascending_distinct_strict (l : list Z) :
  StronglySorted Z.le l -> NoDup l -> StronglySorted Z.lt l.
Proof.
  induction 1 as [|x l Hs IH Hx]; intros Hn; [constructor|].
  inversion Hn as [|? ? Nx Nl]; subst.
  constructor; [now apply IH|].
  rewrite Forall_forall in *. intros y Hy. specialize (Hx y Hy).
  assert (x <> y) by (intros ->; contradiction). lia.
Qed.

Lemma zRelative_injective (r d1 d2 : Z) :
  (0 <= d1 <= 359)%Z -> (0 <= d2 <= 359)%Z ->
  zRelative (d1 - r) = zRelative (d2 - r) -> d1 = d2.
Proof.
  unfold zRelative. intros H1 H2.
  destruct (Z.ltb_spec 180 (d1 - r)); destruct (Z.ltb_spec 180 (d2 - r));
    try destruct (Z.ltb_spec (d1 - r) (-180));
    try destruct (Z.ltb_spec (d2 - r) (-180)); lia.
Qed.

(** Relative to the rounded bearing, the degrees of a window whose bounds
    are up to one degree clockwise of the exact ones. *)
Lemma rounded_window_relative_range (f delta ds de d : Z) :
  (0 <= f <= 359)%Z -> (0 <= delta <= 1)%Z ->
  (0 <= ds <= 1)%Z -> (0 <= de <= 1)%Z ->
  In d (windowDegrees ((f - 45 + ds) mod 360) ((f + 45 + de) mod 360)) ->
  (-45 + ds - delta <= zRelative (d - (f + delta)) <= 45 + de - delta)%Z.
Proof.
  intros Hf Hd Hds Hde Hin. apply windowDegrees_In in Hin. unfold zRelative.
  destruct (Z.ltb_spec ((f + 45 + de) mod 360) ((f - 45 + ds) mod 360));
    destruct (Z.ltb_spec 180 (d - (f + delta)));
    try destruct (Z.ltb_spec (d - (f + delta)) (-180));
    Z.div_mod_to_equations; lia.
Qed.

Section RoundedHorizon.
Context {S : Type} (elevation : ElevationData S).
Variable fl : Q -> Q.
Hypothesis Hfl : faithfulRounding fl.
Hypothesis Hgrid : onePerDegree elevation.

Lemma rounding_whole_difference (a b : Z) :
  (Z.abs (a - b) <= 2 ^ 53)%Z ->
  fl (inject_Z a - inject_Z b) == inject_Z (a - b).
Proof.
  intros H. transitivity (fl (inject_Z (a - b))).
  - apply (rounding_comp fl Hfl). unfold Z.sub.
    rewrite inject_Z_plus, inject_Z_opp. reflexivity.
  - now apply (rounding_whole fl Hfl).
Qed.

Lemma rounded_normalizeRelativeDirection_comp (u v : Q) :
  u == v ->
  Rounded.normalizeRelativeDirection fl u ==
  Rounded.normalizeRelativeDirection fl v.
Proof.
  intros E. unfold Rounded.normalizeRelativeDirection.
  destruct (Qlt_le_dec 180 u), (Qlt_le_dec 180 v); try lra.
  - apply (rounding_comp fl Hfl). now rewrite E.
  - destruct (Qlt_le_dec u (-180)), (Qlt_le_dec v (-180)); try lra.
    apply (rounding_comp fl Hfl). now rewrite E.
Qed.

(** On whole degrees the rounded transformation is exact. *)
Lemma rounded_relative_direction (d r : Z) :
  (0 <= d <= 359)%Z -> (0 <= r <= 360)%Z ->
  Rounded.normalizeRelativeDirection fl (fl (inject_Z d - inject_Z r)) ==
  inject_Z (zRelative (d - r)).
Proof.
  intros Hd Hr.
  assert (P : (720 <= 2 ^ 53)%Z) by (cbn; lia).
  rewrite (rounded_normalizeRelativeDirection_comp _ _
             (rounding_whole_difference d r ltac:(lia))).
  assert (Hx : (-360 <= d - r <= 359)%Z) by lia.
  revert Hx. generalize (d - r)%Z. intros x Hx.
  unfold Rounded.normalizeRelativeDirection, zRelative.
  destruct (Qlt_le_dec 180 (inject_Z x)) as [G|G].
  - change 180 with (inject_Z 180) in G. rewrite <- Zlt_Qlt in G.
    destruct (Z.ltb_spec 180 x); [|lia].
    apply (rounding_whole_difference x 360). lia.
  - change 180 with (inject_Z 180) in G. rewrite <- Zle_Qle in G.
    destruct (Z.ltb_spec 180 x); [lia|].
    destruct (Qlt_le_dec (inject_Z x) (-180)) as [G'|G'].
    + change (-180) with (inject_Z (-180)) in G'. rewrite <- Zlt_Qlt in G'.
      destruct (Z.ltb_spec x (-180)); [|lia].
      transitivity (fl (inject_Z (x + 360))).
      * apply (rounding_comp fl Hfl). rewrite inject_Z_plus. reflexivity.
      * apply (rounding_whole fl Hfl). lia.
    + change (-180) with (inject_Z (-180)) in G'. rewrite <- Zle_Qle in G'.
      destruct (Z.ltb_spec x (-180)); [lia|reflexivity].
Qed.

Lemma rounded_raw_window (vp : Coordinate) (b : Q) (w : World S) (s e : Z) :
  Rounded.calculateDirectionRange fl b =
    {| range_start := inject_Z s; range_end := inject_Z e |} ->
  (0 <= s < 360)%Z -> (0 <= e < 360)%Z ->
  Permutation
    (map direction
       (fst (rawPoints elevation vp (Rounded.calculateDirectionRange fl b) w)))
    (map inject_Z (windowDegrees s e)).
Proof.
  intros E Hs He.
  pose proof (rawPoints_cases elevation vp
                (Rounded.calculateDirectionRange fl b) w) as C.
  cbv zeta in C. rewrite C, E, rangeWrapsAroundNorth_grid.
  cbn [range_start range_end]. unfold windowDegrees.
  destruct (Z.ltb_spec e s) as [W|W]; cbn [fst].
  - rewrite !map_app. apply Permutation_app.
    + apply (Hgrid _ _ s 359%Z); lia.
    + apply (Hgrid _ _ 0%Z e); lia.
  - apply Hgrid; lia.
Qed.

(** X6.  Assume one sample per whole degree of every queried range.  In
    double arithmetic, for a bearing in [0, 360) the relative directions of
    the horizon are whole numbers and, in order, the consecutive whole
    degrees [lo .. hi], with [lo] from -46 to -44 and [hi] from 44 to 46:
    between 90 and 92 samples.  For a whole-number bearing they are
    [-45 .. 45], 91 samples. *)
Theorem horizon_is_centred_window (vp : Coordinate) (b : Q) (w : World S) :
  0 <= b < 360 ->
  let h := fst (Rounded.calculateHorizonForViewpoint fl elevation vp b w) in
  exists lo hi : Z,
    (-46 <= lo <= -44)%Z /\ (44 <= hi <= 46)%Z /\ (89 <= hi - lo <= 91)%Z /\
    (b == inject_Z (Qfloor b) -> lo = (-45)%Z /\ hi = 45%Z) /\
    length h = Z.to_nat (hi - lo + 1) /\
    Forall (fun p => relativeDirection p ==
                     inject_Z (Qfloor (relativeDirection p))) h /\
    map (fun p => Qfloor (relativeDirection p)) h = degreesBetween lo hi.
Proof.
  intros [B0 B1] h. subst h.
  assert (Hb : - inject_Z (2 ^ 52) <= b <= inject_Z (2 ^ 52)).
  { assert (P : 360 <= inject_Z (2 ^ 52)) by (vm_compute; discriminate).
    split; lra. }
  destruct (rounded_window fl Hfl b Hb)
    as (s & e & ds & de & E & Es & Ee & Hds & Hde & W & Hs & He & M).
  pose proof (rounded_raw_window vp b w s e E Hs He) as P.
  rewrite rounded_calculateHorizonForViewpoint_run. cbn [fst].
  set (points := fst (rawPoints elevation vp
                        (Rounded.calculateDirectionRange fl b) w)) in *.
  set (f := Qfloor b) in *.
  set (delta := (Qfloor (b + (1 # 2)) - f)%Z).
  set (degrees := windowDegrees s e) in *.
  set (cmp := fun pointA pointB : HorizonPoint =>
                fl (relativeDirection pointA - relativeDirection pointB)).
  set (transformed :=
         map (fun point => Rounded.transformToRelativeDirection fl point b)
             points).
  assert (Hf : (0 <= f <= 359)%Z).
  { subst f. destruct (Qfloor_bounds b) as [Lo Hi]. split.
    - change 0%Z with (Qfloor 0). now apply Qfloor_resp_le.
    - assert (H : inject_Z (Qfloor b) < inject_Z 359 + 1)
        by (change (inject_Z 359) with 359; lra).
      now apply inject_Z_lt_succ in H. }
  assert (Hd : (0 <= delta <= 1)%Z) by apply round_is_floor_or_next.
  assert (Er : Math_round b = inject_Z (f + delta)).
  { unfold Math_round. f_equal. subst delta. lia. }
  destruct (windowDegrees_facts s e ltac:(lia) ltac:(lia)) as (Len & Hnd & Hr).
  fold degrees in Len, Hnd, Hr. rewrite Forall_forall in Hr.
  (* the key of a transformed sample of the window *)
  assert (K : forall d : Z, In d degrees ->
             Rounded.normalizeRelativeDirection fl
               (fl (inject_Z d - Math_round b)) ==
             inject_Z (zRelative (d - (f + delta)))).
  { intros d Hin. rewrite Er. apply rounded_relative_direction; [|lia].
    now apply Hr. }
  assert (R : forall d : Z, In d degrees ->
             (-45 + ds - delta <= zRelative (d - (f + delta))
              <= 45 + de - delta)%Z).
  { intros d Hin. apply rounded_window_relative_range; try assumption.
    subst degrees. now rewrite <- Es, <- Ee. }
  assert (Hkey : forall p, In p transformed ->
             exists d, In d degrees /\
               relativeDirection p == inject_Z (zRelative (d - (f + delta)))).
  { intros p Hin. apply in_map_iff in Hin. destruct Hin as (point & <- & Hin).
    assert (Hdir : In (direction point) (map inject_Z degrees)).
    { eapply Permutation_in; [exact P|]. now apply in_map. }
    apply in_map_iff in Hdir. destruct Hdir as (d & Ed & Hd').
    exists d. split; [exact Hd'|].
    cbn [Rounded.transformToRelativeDirection relativeDirection].
    rewrite <- Ed. now apply K. }
  assert (Pout : Permutation (Array_sort cmp transformed) transformed)
    by apply Array_sort_perm.
  assert (Hint : Forall (fun p => relativeDirection p ==
                    inject_Z (Qfloor (relativeDirection p)))
                   (Array_sort cmp transformed)).
  { apply Forall_forall. intros p Hin.
    destruct (Hkey p) as (d & _ & Ep);
      [eapply Permutation_in; [exact Pout|exact Hin]|].
    rewrite (Qfloor_comp _ _ Ep), Qfloor_Z. exact Ep. }
  assert (Hsorted : StronglySorted keyLe (Array_sort cmp transformed)).
  { apply (Array_sort_sorted_on relativeDirection cmp).
    intros x y Hx Hy.
    destruct (Hkey x Hx) as (dx & Ix & Ex).
    destruct (Hkey y Hy) as (dy & Iy & Ey).
    pose proof (R dx Ix) as Rx. pose proof (R dy Iy) as Ry.
    set (kx := zRelative (dx - (f + delta))) in *.
    set (ky := zRelative (dy - (f + delta))) in *.
    assert (Ec : cmp x y == inject_Z (kx - ky)).
    { subst cmp. cbv beta.
      transitivity (fl (inject_Z kx - inject_Z ky)).
      - apply (rounding_comp fl Hfl). now rewrite Ex, Ey.
      - apply rounding_whole_difference.
        assert (Q : (200 <= 2 ^ 53)%Z) by (cbn; lia). lia. }
    rewrite Ec, Ex, Ey. change 0 with (inject_Z 0).
    rewrite <- !Zlt_Qlt. lia. }
  assert (Pz : Permutation
                 (map (fun p => Qfloor (relativeDirection p))
                      (Array_sort cmp transformed))
                 (map (fun d => zRelative (d - (f + delta))) degrees)).
  { rewrite Pout. subst transformed. rewrite map_map.
    cbn [Rounded.transformToRelativeDirection relativeDirection].
    rewrite <- (map_map direction
                  (fun q => Qfloor (Rounded.normalizeRelativeDirection fl
                                      (fl (q - Math_round b))))).
    rewrite P, map_map. apply Permutation_refl'. apply map_ext_in.
    intros d Hin. rewrite (Qfloor_comp _ _ (K d Hin)). apply Qfloor_Z. }
  set (zs := map (fun p => Qfloor (relativeDirection p))
                 (Array_sort cmp transformed)) in *.
  assert (Lz : length zs = Z.to_nat (90 + de - ds + 1)).
  { rewrite (Permutation_length Pz), length_map, Len. now rewrite M. }
  assert (Hz : StronglySorted Z.lt zs).
  { apply ascending_distinct_strict.
    - subst zs. clear - Hsorted Hint.
      induction Hsorted as [|p l Hs' IH Hp]; cbn [map]; [constructor|].
      inversion Hint as [|? ? Ip Il]; subst.
      constructor; [now apply IH|].
      apply Forall_map. rewrite Forall_forall in *. intros q Hq.
      specialize (Hp q Hq). specialize (Il q Hq). unfold keyLe in Hp.
      rewrite Zle_Qle. lra.
    - eapply Permutation_NoDup; [symmetry; exact Pz|].
      apply NoDup_map_NoDup_ForallPairs; [|exact Hnd].
      intros d1 d2 H1 H2. apply zRelative_injective; now apply Hr. }
  exists (-45 + ds - delta)%Z, (45 + de - delta)%Z.
  split; [lia|]. split; [lia|]. split; [lia|]. split.
  - intros Eb. destruct (W Eb) as [-> ->].
    assert (D0 : delta = 0%Z).
    { subst delta. fold f in Eb.
      assert (F : Qfloor (b + (1 # 2)) = f).
      { apply Qfloor_unique; lra. }
      lia. }
    lia.
  - split; [|split; [exact Hint|]].
    + rewrite <- (length_map (fun p => Qfloor (relativeDirection p))).
      fold zs. rewrite Lz. f_equal. lia.
    + replace (45 + de - delta)%Z
        with (-45 + ds - delta + Z.of_nat (length zs) - 1)%Z
        by (rewrite Lz; lia).
      apply ascending_fills_range; [exact Hz|].
      eapply Permutation_Forall; [symmetry; exact Pz|].
      apply Forall_map. apply Forall_forall. intros d Hin.
      pose proof (R d Hin). rewrite Lz. lia.
Qed.
End RoundedHorizon.

Lemma horizon_is_centred_window_witness :
  exists lo hi : Z,
    (89 <= hi - lo <= 91)%Z /\
    map (fun p => Qfloor (relativeDirection p))
      (fst (Rounded.calculateHorizonForViewpoint round64 flatTerrain PEAK
              double_13_999999999999968 (mkWorld tt []))) =
    degreesBetween lo hi.
Proof.
  assert (B : 0 <= double_13_999999999999968 < 360)
    by (split; [discriminate|reflexivity]).
  destruct (horizon_is_centred_window flatTerrain round64 round64_faithful
              flatTerrain_onePerDegree PEAK double_13_999999999999968
              (mkWorld tt []) B) as (lo & hi & _ & _ & R & _ & _ & _ & E).
  exists lo, hi. split; [exact R|exact E].
Defined.

(** In doubles: the horizon of the bearing [13.999999999999968] over one
    sample per degree has 92 samples, the relative directions -46 .. 45. *)
Example horizon_of_92_samples :
  map (fun p => Qfloor (relativeDirection p))
    (fst (Rounded.calculateHorizonForViewpoint round64 flatTerrain PEAK
            double_13_999999999999968 (mkWorld tt []))) =
  degreesBetween (-46) 45.
Proof. vm_compute. reflexivity. Qed.
